(** * OneOsc synth sequencer: the step clock, the voice life cycle and the
      envelope scheduler of [src/App.js], as a shallow embedding.

    Modelling conventions.
    - A JS [Number] is an exact rational ([Q]); rounding and [NaN] are left
      out, except for the step index, where [x % 0] is [NaN] and is kept.
    - The Web Audio objects the program allocates live in a store
      ([nodes]), addressed by their allocation index; a React ref holding a
      node holds its index, so two refs to one node alias.
    - [App] is a React function component.  Every render calls [App] again
      and binds the state values ([waveform], [steps], [bpm], ...) as
      constants; the handlers declared in the body ([nextStep],
      [playSequence], [handleAdsrChange], ...) are closures over the
      constants of the render that created them.  [Render.t] is that
      environment, and every handler below takes the environment of its
      closure as first argument.  Refs ([playingRef], [lastOscRef], ...) are
      shared by all renders and live in [World].
    - A handler that dereferences a [null] ref throws; [M] is the resulting
      state-and-exception monad (the store keeps what was written before
      the throw). *)

From Stdlib Require Import QArith Qminmax ZArith String Lia Lqa.
From stdpp Require Import base list strings.

Open Scope string_scope.
Open Scope list_scope.

(** ** Numbers *)

(** App.js 22-24. [Math.max(min, Math.min(max, val))]. *)
Definition clamp (val min max : Q) : Q := Qmax min (Qmin max val).

(** A step index: an integer, or the [NaN] that [% 0] yields. *)
Inductive index : Type :=
| NaN
| Int (z : Z).

(** [(idx + 1) % len] (JS remainder: the sign follows the dividend).  The
    sum is taken in [Z]: in the code it is exact for an index below 2^53,
    which every index of an array is. *)
Definition succ_rem (idx : index) (len : nat) : index :=
  match idx with
  | NaN => NaN
  | Int z => if Nat.eqb len 0 then NaN else Int (Z.rem (z + 1) (Z.of_nat len))
  end.

(** ** The pitch table *)

(** App.js 9-13. *)
Definition NOTE_FREQS_table : list (string * Q) :=
  [ ("C3", 130.81); ("C#3", 138.59); ("D3", 146.83); ("D#3", 155.56);
    ("E3", 164.81); ("F3", 174.61); ("F#3", 185.00); ("G3", 196.00);
    ("G#3", 207.65); ("A3", 220.00); ("A#3", 233.08); ("B3", 246.94);
    ("C4", 261.63); ("C#4", 277.18); ("D4", 293.66); ("D#4", 311.13);
    ("E4", 329.63); ("F4", 349.23); ("F#4", 369.99); ("G4", 392.00);
    ("G#4", 415.30); ("A4", 440.00); ("A#4", 466.16); ("B4", 493.88);
    ("C5", 523.25); ("C#5", 554.37); ("D5", 587.33); ("D#5", 622.25);
    ("E5", 659.25); ("F5", 698.46); ("F#5", 739.99); ("G5", 783.99) ]%Q.

Fixpoint assoc (k : string) (l : list (string * Q)) : option Q :=
  match l with
  | [] => None
  | (k', v) :: l' => if String.eqb k k' then Some v else assoc k l'
  end.

(** [NOTE_FREQS[note]] on the table's own keys; [None] is [undefined].  The
    names the object inherits ([Object_prototype_names] below) are not
    modelled: no step select offers them. *)
Definition NOTE_FREQS (note : string) : option Q := assoc note NOTE_FREQS_table.

(** A sequence slot: a string, or a hole ([undefined]) left by a write past
    the end of the array. *)
Definition slot : Type := option string.

(** App.js 15-20. *)
Definition DEFAULT_SEQ : list slot :=
  map Some [ "E3"; "E3"; "G3"; "A3";  "B3"; "B3"; "A3"; "G3";
             "E3"; "E3"; "G3"; "A3";  "B3"; "A3"; "G3"; "E3" ].

(** [steps[idx]]: [None] for [undefined] (hole, index out of range, negative
    or [NaN]). *)
Definition steps_get (steps : list slot) (idx : index) : option string :=
  match idx with
  | NaN => None
  | Int z => if (z <? 0)%Z then None else mjoin (steps !! Z.to_nat z)
  end.

(** [note && NOTE_FREQS[note]] as a condition: the frequency when the slot
    holds a non-empty string that the table maps to a non-zero number. *)
Definition note_freq (note : option string) : option Q :=
  match note with
  | None => None
  | Some n =>
      if String.eqb n "" then None
      else match NOTE_FREQS n with
           | Some f => if Qeq_bool f 0 then None else Some f
           | None => None
           end
  end.

(** ** React state as seen by one render *)

Module ADSR.
Record t : Type := mk { a : Q; d : Q; s : Q; r : Q }.
End ADSR.

Inductive Field : Type := fa | fd | fs | fr.

(** [{ ...adsr, [field]: v }]. *)
Definition adsr_with (e : ADSR.t) (field : Field) (v : Q) : ADSR.t :=
  match field with
  | fa => ADSR.mk v (ADSR.d e) (ADSR.s e) (ADSR.r e)
  | fd => ADSR.mk (ADSR.a e) v (ADSR.s e) (ADSR.r e)
  | fs => ADSR.mk (ADSR.a e) (ADSR.d e) v (ADSR.r e)
  | fr => ADSR.mk (ADSR.a e) (ADSR.d e) (ADSR.s e) v
  end.

Definition adsr_get (e : ADSR.t) (field : Field) : Q :=
  match field with
  | fa => ADSR.a e | fd => ADSR.d e | fs => ADSR.s e | fr => ADSR.r e
  end.

(** The constants a render binds (App.js 97-104) and its handlers close
    over. *)
Module Render.
Record t : Type := mk {
  waveform : string;
  steps : list slot;
  bpm : Q;
  volume : Q;
  filter : Q;
  adsr : ADSR.t;
  reverb : Q
}.
End Render.

(** ** Web Audio objects *)

Inductive AutomationEvent : Type :=
| SetValueAtTime (value time : Q)
| LinearRampToValueAtTime (value endTime : Q).

Definition event_time (e : AutomationEvent) : Q :=
  match e with
  | SetValueAtTime _ t => t
  | LinearRampToValueAtTime _ t => t
  end.

(** An [AudioParam]: the [value] attribute and the calls recorded on its
    automation timeline, oldest first. *)
Record AudioParam : Type := mkParam {
  value : Q;
  events : list AutomationEvent
}.

Inductive NodeKind : Type :=
| Destination | Gain | Oscillator | BiquadFilter | Convolver.

(** One node.  [param] is [gain] for a gain node and [frequency] for an
    oscillator or a filter; [outputs] lists the nodes it is connected to. *)
Record AudioNode : Type := mkNode {
  kind : NodeKind;
  type : string;
  param : AudioParam;
  startTime : option Q;
  stopTime : option Q;
  outputs : list nat
}.

(** A pending [setTimeout]: the only callback the program registers is the
    arrow function of App.js 252-256, a closure over the render environment
    of the [nextStep] that created it and over that call's [idx]. *)
Record Timer : Type := mkTimer {
  timerId : nat;
  delay : Q;
  env : Render.t;
  idx : index
}.

(** ** The world *)

Record World : Type := mkWorld {
  (* React state, as committed *)
  state : Render.t;
  playing : bool;
  currentStep : index;
  (* refs *)
  playingRef : bool;
  audioCtxRef : bool;               (* is the AudioContext created? *)
  dryGainRef : option nat;
  wetGainRef : option nat;
  convolverRef : option nat;
  stepTimerRef : option nat;
  lastGainRef : option nat;
  lastOscRef : option nat;
  lastFilterRef : option nat;
  (* the audio context *)
  currentTime : Q;
  nodes : list AudioNode;
  (* the event loop *)
  timers : list Timer;
  nextTimerId : nat
}.

Definition set_state (f : Render.t -> Render.t) (w : World) : World :=
  mkWorld (f (state w)) (playing w) (currentStep w) (playingRef w)
    (audioCtxRef w) (dryGainRef w) (wetGainRef w) (convolverRef w)
    (stepTimerRef w) (lastGainRef w) (lastOscRef w) (lastFilterRef w)
    (currentTime w) (nodes w) (timers w) (nextTimerId w).

Definition set_playing (b : bool) (w : World) : World :=
  mkWorld (state w) b (currentStep w) (playingRef w)
    (audioCtxRef w) (dryGainRef w) (wetGainRef w) (convolverRef w)
    (stepTimerRef w) (lastGainRef w) (lastOscRef w) (lastFilterRef w)
    (currentTime w) (nodes w) (timers w) (nextTimerId w).

Definition set_currentStep (i : index) (w : World) : World :=
  mkWorld (state w) (playing w) i (playingRef w)
    (audioCtxRef w) (dryGainRef w) (wetGainRef w) (convolverRef w)
    (stepTimerRef w) (lastGainRef w) (lastOscRef w) (lastFilterRef w)
    (currentTime w) (nodes w) (timers w) (nextTimerId w).

Definition set_playingRef (b : bool) (w : World) : World :=
  mkWorld (state w) (playing w) (currentStep w) b
    (audioCtxRef w) (dryGainRef w) (wetGainRef w) (convolverRef w)
    (stepTimerRef w) (lastGainRef w) (lastOscRef w) (lastFilterRef w)
    (currentTime w) (nodes w) (timers w) (nextTimerId w).

Definition set_audioCtxRef (b : bool) (w : World) : World :=
  mkWorld (state w) (playing w) (currentStep w) (playingRef w)
    b (dryGainRef w) (wetGainRef w) (convolverRef w)
    (stepTimerRef w) (lastGainRef w) (lastOscRef w) (lastFilterRef w)
    (currentTime w) (nodes w) (timers w) (nextTimerId w).

Definition set_dryGainRef (x : option nat) (w : World) : World :=
  mkWorld (state w) (playing w) (currentStep w) (playingRef w)
    (audioCtxRef w) x (wetGainRef w) (convolverRef w)
    (stepTimerRef w) (lastGainRef w) (lastOscRef w) (lastFilterRef w)
    (currentTime w) (nodes w) (timers w) (nextTimerId w).

Definition set_wetGainRef (x : option nat) (w : World) : World :=
  mkWorld (state w) (playing w) (currentStep w) (playingRef w)
    (audioCtxRef w) (dryGainRef w) x (convolverRef w)
    (stepTimerRef w) (lastGainRef w) (lastOscRef w) (lastFilterRef w)
    (currentTime w) (nodes w) (timers w) (nextTimerId w).

Definition set_convolverRef (x : option nat) (w : World) : World :=
  mkWorld (state w) (playing w) (currentStep w) (playingRef w)
    (audioCtxRef w) (dryGainRef w) (wetGainRef w) x
    (stepTimerRef w) (lastGainRef w) (lastOscRef w) (lastFilterRef w)
    (currentTime w) (nodes w) (timers w) (nextTimerId w).

Definition set_stepTimerRef (x : option nat) (w : World) : World :=
  mkWorld (state w) (playing w) (currentStep w) (playingRef w)
    (audioCtxRef w) (dryGainRef w) (wetGainRef w) (convolverRef w)
    x (lastGainRef w) (lastOscRef w) (lastFilterRef w)
    (currentTime w) (nodes w) (timers w) (nextTimerId w).

Definition set_lastGainRef (x : option nat) (w : World) : World :=
  mkWorld (state w) (playing w) (currentStep w) (playingRef w)
    (audioCtxRef w) (dryGainRef w) (wetGainRef w) (convolverRef w)
    (stepTimerRef w) x (lastOscRef w) (lastFilterRef w)
    (currentTime w) (nodes w) (timers w) (nextTimerId w).

Definition set_lastOscRef (x : option nat) (w : World) : World :=
  mkWorld (state w) (playing w) (currentStep w) (playingRef w)
    (audioCtxRef w) (dryGainRef w) (wetGainRef w) (convolverRef w)
    (stepTimerRef w) (lastGainRef w) x (lastFilterRef w)
    (currentTime w) (nodes w) (timers w) (nextTimerId w).

Definition set_lastFilterRef (x : option nat) (w : World) : World :=
  mkWorld (state w) (playing w) (currentStep w) (playingRef w)
    (audioCtxRef w) (dryGainRef w) (wetGainRef w) (convolverRef w)
    (stepTimerRef w) (lastGainRef w) (lastOscRef w) x
    (currentTime w) (nodes w) (timers w) (nextTimerId w).

Definition set_currentTime (t : Q) (w : World) : World :=
  mkWorld (state w) (playing w) (currentStep w) (playingRef w)
    (audioCtxRef w) (dryGainRef w) (wetGainRef w) (convolverRef w)
    (stepTimerRef w) (lastGainRef w) (lastOscRef w) (lastFilterRef w)
    t (nodes w) (timers w) (nextTimerId w).

Definition set_nodes (f : list AudioNode -> list AudioNode) (w : World) : World :=
  mkWorld (state w) (playing w) (currentStep w) (playingRef w)
    (audioCtxRef w) (dryGainRef w) (wetGainRef w) (convolverRef w)
    (stepTimerRef w) (lastGainRef w) (lastOscRef w) (lastFilterRef w)
    (currentTime w) (f (nodes w)) (timers w) (nextTimerId w).

Definition set_timers (f : list Timer -> list Timer) (w : World) : World :=
  mkWorld (state w) (playing w) (currentStep w) (playingRef w)
    (audioCtxRef w) (dryGainRef w) (wetGainRef w) (convolverRef w)
    (stepTimerRef w) (lastGainRef w) (lastOscRef w) (lastFilterRef w)
    (currentTime w) (nodes w) (f (timers w)) (nextTimerId w).

Definition set_nextTimerId (n : nat) (w : World) : World :=
  mkWorld (state w) (playing w) (currentStep w) (playingRef w)
    (audioCtxRef w) (dryGainRef w) (wetGainRef w) (convolverRef w)
    (stepTimerRef w) (lastGainRef w) (lastOscRef w) (lastFilterRef w)
    (currentTime w) (nodes w) (timers w) n.

(** ** Handlers as state-and-exception computations *)

Inductive Result (A : Type) : Type :=
| Ok (x : A) (w : World)
| Throw (e : string) (w : World).
Arguments Ok {A} x w.
Arguments Throw {A} e w.

Definition M (A : Type) : Type := World -> Result A.

Definition ret {A : Type} (x : A) : M A := fun w => Ok x w.

Definition bind {A B : Type} (c : M A) (k : A -> M B) : M B :=
  fun w =>
    match c w with
    | Ok x w' => k x w'
    | Throw e w' => Throw e w'
    end.

Definition throw {A : Type} (e : string) : M A := fun w => Throw e w.
Definition gets {A : Type} (f : World -> A) : M A := fun w => Ok (f w) w.
Definition modify (f : World -> World) : M unit := fun w => Ok tt (f w).

Notation "'let*' x ':=' c 'in' k" := (bind c (fun x => k))
  (at level 10, x name, c at level 100, k at level 200).
Notation "c >> k" := (bind c (fun _ => k))
  (at level 90, right associativity).

(** [if (ref.current) { ... }]. *)
Definition when_some {A : Type} (o : option A) (k : A -> M unit) : M unit :=
  match o with
  | Some x => k x
  | None => ret tt
  end.

(** The world a handler leaves behind, whether it returned or threw. *)
Definition world_of {A : Type} (res : Result A) : World :=
  match res with
  | Ok _ w => w
  | Throw _ w => w
  end.

Definition returns {A : Type} (res : Result A) : bool :=
  match res with
  | Ok _ _ => true
  | Throw _ _ => false
  end.

(** ** The Web Audio calls the program makes *)

Definition default_node (k : NodeKind) : AudioNode :=
  match k with
  | Destination => mkNode k "" (mkParam 0 []) None None []
  | Gain => mkNode k "" (mkParam 1 []) None None []
  | Oscillator => mkNode k "sine" (mkParam 440 []) None None []
  | BiquadFilter => mkNode k "lowpass" (mkParam 350 []) None None []
  | Convolver => mkNode k "" (mkParam 0 []) None None []
  end.

(** [ctx.destination]: the first node of the context. *)
Definition destination : nat := 0.

(** [new AudioContext()]. *)
Definition newAudioContext : M unit :=
  modify (fun w =>
    set_audioCtxRef true (set_nodes (fun l => l ++ [default_node Destination]) w)).

(** [audioCtxRef.current.createX()]: a [TypeError] when the ref is [null]. *)
Definition createNode (k : NodeKind) : M nat :=
  fun w =>
    if audioCtxRef w
    then Ok (length (nodes w)) (set_nodes (fun l => l ++ [default_node k]) w)
    else Throw "TypeError" w.

Definition with_type (t : string) (n : AudioNode) : AudioNode :=
  mkNode (kind n) t (param n) (startTime n) (stopTime n) (outputs n).
Definition with_param (f : AudioParam -> AudioParam) (n : AudioNode) : AudioNode :=
  mkNode (kind n) (type n) (f (param n)) (startTime n) (stopTime n) (outputs n).
Definition with_startTime (t : option Q) (n : AudioNode) : AudioNode :=
  mkNode (kind n) (type n) (param n) t (stopTime n) (outputs n).
Definition with_stopTime (t : option Q) (n : AudioNode) : AudioNode :=
  mkNode (kind n) (type n) (param n) (startTime n) t (outputs n).
Definition with_outputs (f : list nat -> list nat) (n : AudioNode) : AudioNode :=
  mkNode (kind n) (type n) (param n) (startTime n) (stopTime n) (f (outputs n)).

Definition update_node (id : nat) (f : AudioNode -> AudioNode) : M unit :=
  modify (set_nodes (alter f id)).

(** [node.type = t]. *)
Definition set_type (id : nat) (t : string) : M unit :=
  update_node id (with_type t).

(** [param.value = v]. *)
Definition set_value (id : nat) (v : Q) : M unit :=
  update_node id (with_param (fun p => mkParam v (events p))).

(** [param.cancelScheduledValues(t)]: drops the events at or after [t]. *)
Definition cancelScheduledValues (id : nat) (t : Q) : M unit :=
  update_node id (with_param (fun p =>
    mkParam (value p)
      (List.filter (fun e => negb (Qle_bool t (event_time e))) (events p)))).

Definition schedule (id : nat) (e : AutomationEvent) : M unit :=
  update_node id (with_param (fun p => mkParam (value p) (events p ++ [e]))).

Definition setValueAtTime (id : nat) (v t : Q) : M unit :=
  schedule id (SetValueAtTime v t).
Definition linearRampToValueAtTime (id : nat) (v t : Q) : M unit :=
  schedule id (LinearRampToValueAtTime v t).

(** [src.connect(dst)]: a [TypeError] when [dst] is [null]. *)
Definition connect (src : nat) (dst : option nat) : M unit :=
  match dst with
  | Some d => update_node src (with_outputs (fun l => l ++ [d]))
  | None => throw "TypeError"
  end.

(** [node.disconnect()]: drops every outgoing connection. *)
Definition disconnect (id : nat) : M unit :=
  update_node id (with_outputs (fun _ => [])).

(** [osc.start(t)]. *)
Definition start (id : nat) (t : Q) : M unit :=
  update_node id (with_startTime (Some t)).

(** [osc.stop(t)]. *)
Definition stop (id : nat) (t : Q) : M unit :=
  update_node id (with_stopTime (Some t)).

(** [osc.stop()]: stop at the current instant. *)
Definition stop_now (id : nat) : M unit :=
  let* now := gets currentTime in stop id now.

(** [setTimeout(callback, ms)] for the callback of App.js 252-256. *)
Definition setTimeout (e : Render.t) (i : index) (ms : Q) : M nat :=
  fun w =>
    let id := nextTimerId w in
    Ok id (set_nextTimerId (S id)
             (set_timers (fun l => l ++ [mkTimer id ms e i]) w)).

(** [clearTimeout(id)]. *)
Definition clearTimeout (id : nat) : M unit :=
  modify (set_timers (List.filter (fun t => negb (Nat.eqb (timerId t) id)))).

(** ** The program *)

Definition setPlaying (b : bool) : M unit := modify (set_playing b).
Definition setCurrentStep (i : index) : M unit := modify (set_currentStep i).

(** App.js 236-240, and again 271-275: the five calls that arm the
    envelope on [gain.gain] from the closure's [volume] and [adsr]. *)
Definition armEnvelope (e : Render.t) (gain : nat) (now : Q) : M unit :=
  let volume := Render.volume e in
  let adsr := Render.adsr e in
  cancelScheduledValues gain now >>
  setValueAtTime gain 0 now >>
  linearRampToValueAtTime gain volume (now + ADSR.a adsr) >>
  linearRampToValueAtTime gain (volume * ADSR.s adsr)
    (now + ADSR.a adsr + ADSR.d adsr) >>
  linearRampToValueAtTime gain 0
    (now + ADSR.a adsr + ADSR.d adsr + ADSR.r adsr).

(** App.js 199-211, and again 180-192: stop and disconnect the last voice. *)
Definition stopLastNote : M unit :=
  (let* o := gets lastOscRef in
   when_some o (fun osc =>
     stop_now osc >> disconnect osc >> modify (set_lastOscRef None))) >>
  (let* g := gets lastGainRef in
   when_some g (fun gain =>
     disconnect gain >> modify (set_lastGainRef None))) >>
  (let* f := gets lastFilterRef in
   when_some f (fun filterNode =>
     disconnect filterNode >> modify (set_lastFilterRef None))).

(** App.js 214-248: build the voice of the note, if there is one. *)
Definition prepareNote (e : Render.t) (i : index) : M unit :=
  let note := steps_get (Render.steps e) i in
  match note_freq note with
  | Some freq =>
      let* osc := createNode Oscillator in
      let* gain := createNode Gain in
      let* filterNode := createNode BiquadFilter in
      set_type osc (Render.waveform e) >>
      set_value osc freq >>
      set_type filterNode "lowpass" >>
      set_value filterNode (Render.filter e) >>
      set_value gain (Render.volume e) >>
      connect osc (Some filterNode) >>
      connect filterNode (Some gain) >>
      (let* dry := gets dryGainRef in connect gain dry) >>
      (let* conv := gets convolverRef in connect gain conv) >>
      let* now := gets currentTime in
      armEnvelope e gain now >>
      start osc now >>
      stop osc (now + ADSR.a (Render.adsr e) + ADSR.d (Render.adsr e)
                    + ADSR.r (Render.adsr e)) >>
      modify (set_lastOscRef (Some osc)) >>
      modify (set_lastGainRef (Some gain)) >>
      modify (set_lastFilterRef (Some filterNode))
  | None => ret tt
  end.

(** App.js 251: [(60 * 1000) / bpm / 4]. *)
Definition stepMs (e : Render.t) : Q := 60 * 1000 / Render.bpm e / 4.

(** App.js 250-256. *)
Definition scheduleNext (e : Render.t) (i : index) : M unit :=
  let* id := setTimeout e i (stepMs e) in
  modify (set_stepTimerRef (Some id)).

(** App.js 195-257. *)
Definition nextStep (e : Render.t) (i : index) : M unit :=
  setCurrentStep i >>
  stopLastNote >>
  prepareNote e i >>
  scheduleNext e i.

(** App.js 252-256: the timer callback registered by [nextStep e i]. *)
Definition timerCallback (e : Render.t) (i : index) : M unit :=
  let* p := gets playingRef in
  if p then nextStep e (succ_rem i (length (Render.steps e))) else ret tt.

(** App.js 162-172. *)
Definition playSequence (e : Render.t) : M unit :=
  let* p := gets playingRef in
  if p then ret tt
  else
    setPlaying true >>
    modify (set_playingRef true) >>
    setCurrentStep (Int (-1)) >>
    (let* c := gets audioCtxRef in
     if c then ret tt else newAudioContext) >>
    nextStep e (Int 0).

(** App.js 174-193. *)
Definition stopSequence : M unit :=
  setPlaying false >>
  modify (set_playingRef false) >>
  setCurrentStep (Int (-1)) >>
  (let* t := gets stepTimerRef in when_some t clearTimeout) >>
  stopLastNote.

(** [newSteps[idx] = val] on a copy: past the end the array grows, leaving
    holes. *)
Definition array_set (l : list slot) (i : nat) (v : string) : list slot :=
  if Nat.ltb i (length l) then <[i := Some v]> l
  else l ++ replicate (i - length l) None ++ [Some v].

Definition with_waveform (v : string) (e : Render.t) : Render.t :=
  Render.mk v (Render.steps e) (Render.bpm e) (Render.volume e)
    (Render.filter e) (Render.adsr e) (Render.reverb e).
Definition with_steps (v : list slot) (e : Render.t) : Render.t :=
  Render.mk (Render.waveform e) v (Render.bpm e) (Render.volume e)
    (Render.filter e) (Render.adsr e) (Render.reverb e).
Definition with_bpm (v : Q) (e : Render.t) : Render.t :=
  Render.mk (Render.waveform e) (Render.steps e) v (Render.volume e)
    (Render.filter e) (Render.adsr e) (Render.reverb e).
Definition with_volume (v : Q) (e : Render.t) : Render.t :=
  Render.mk (Render.waveform e) (Render.steps e) (Render.bpm e) v
    (Render.filter e) (Render.adsr e) (Render.reverb e).
Definition with_filter (v : Q) (e : Render.t) : Render.t :=
  Render.mk (Render.waveform e) (Render.steps e) (Render.bpm e)
    (Render.volume e) v (Render.adsr e) (Render.reverb e).
Definition with_adsr (v : ADSR.t) (e : Render.t) : Render.t :=
  Render.mk (Render.waveform e) (Render.steps e) (Render.bpm e)
    (Render.volume e) (Render.filter e) v (Render.reverb e).
Definition with_reverb (v : Q) (e : Render.t) : Render.t :=
  Render.mk (Render.waveform e) (Render.steps e) (Render.bpm e)
    (Render.volume e) (Render.filter e) (Render.adsr e) v.

Definition setWaveform (v : string) : M unit := modify (set_state (with_waveform v)).
Definition setSteps (v : list slot) : M unit := modify (set_state (with_steps v)).
Definition setBpm (v : Q) : M unit := modify (set_state (with_bpm v)).
Definition setVolume (v : Q) : M unit := modify (set_state (with_volume v)).
Definition setFilter (v : Q) : M unit := modify (set_state (with_filter v)).
Definition setAdsr (v : ADSR.t) : M unit := modify (set_state (with_adsr v)).
Definition setReverb (v : Q) : M unit := modify (set_state (with_reverb v)).

(** App.js 259-263. *)
Definition handleStepChange (e : Render.t) (i : nat) (val : string) : M unit :=
  let newSteps := array_set (Render.steps e) i val in
  setSteps newSteps.

(** App.js 265-277.  [val] is already a number ([Knob] passes
    [Number(e.target.value)]). *)
Definition handleAdsrChange (e : Render.t) (field : Field) (val : Q) : M unit :=
  setAdsr (adsr_with (Render.adsr e) field (clamp val 0 2)) >>
  let* g := gets lastGainRef in
  let* c := gets audioCtxRef in
  match g with
  | Some gain =>
      if c then (let* now := gets currentTime in armEnvelope e gain now)
      else ret tt
  | None => ret tt
  end.

(** App.js 116-139: the mount effect. *)
Definition mountEffect (e : Render.t) : M unit :=
  (let* c := gets audioCtxRef in
   if c then ret tt else newAudioContext) >>
  (let* r := gets dryGainRef in
   match r with
   | Some _ => ret tt
   | None =>
       let* n := createNode Gain in
       set_value n (1 - Render.reverb e) >>
       connect n (Some destination) >>
       modify (set_dryGainRef (Some n))
   end) >>
  (let* r := gets wetGainRef in
   match r with
   | Some _ => ret tt
   | None =>
       let* n := createNode Gain in
       set_value n (Render.reverb e) >>
       connect n (Some destination) >>
       modify (set_wetGainRef (Some n))
   end) >>
  (let* r := gets convolverRef in
   match r with
   | Some _ => ret tt
   | None =>
       let* convolver := createNode Convolver in
       (let* wet := gets wetGainRef in connect convolver wet) >>
       modify (set_convolverRef (Some convolver))
   end).

(** App.js 142-145. *)
Definition reverbEffect (e : Render.t) : M unit :=
  (let* r := gets dryGainRef in
   when_some r (fun dry => set_value dry (1 - Render.reverb e))) >>
  (let* r := gets wetGainRef in
   when_some r (fun wet => set_value wet (Render.reverb e))).

(** App.js 152-154. *)
Definition waveformEffect (e : Render.t) : M unit :=
  let* r := gets lastOscRef in
  when_some r (fun osc => set_type osc (Render.waveform e)).

(** App.js 155-157. *)
Definition filterEffect (e : Render.t) : M unit :=
  let* r := gets lastFilterRef in
  when_some r (fun f => set_value f (Render.filter e)).

(** App.js 158-160. *)
Definition volumeEffect (e : Render.t) : M unit :=
  let* r := gets lastGainRef in
  when_some r (fun g => set_value g (Render.volume e)).

(** ** The component's life: mount, then events *)

(** The state before the first render (App.js 97-113). *)
Definition initialState : Render.t :=
  Render.mk "sine" DEFAULT_SEQ 120 0.5 20000
    (ADSR.mk 0.01 0.1 0.7 0.2) 0.01.

Definition pristine : World :=
  mkWorld initialState false (Int (-1)) false
    false None None None None None None None
    0 [] [] 1.

(** The effects of the first render, in declaration order. *)
Definition mount (e : Render.t) : M unit :=
  mountEffect e >> reverbEffect e >> waveformEffect e >>
  filterEffect e >> volumeEffect e.

Definition init : World := world_of (mount initialState pristine).

Inductive Event : Type :=
| Play
| Stop
| ChangeWaveform (v : string)
| ChangeBpm (v : Q)
| ChangeVolume (v : Q)
| ChangeFilter (v : Q)
| ChangeReverb (v : Q)
| ChangeAdsr (field : Field) (val : Q)
| ChangeStep (i : nat) (val : string)
| TimerFires (id : nat)
| ClockAdvances (dt : Q).

(** An effect with a dependency list runs after the render that follows a
    state change, with that render's environment, when the dependency
    changed. *)
Definition rerender (changed : Render.t -> Render.t -> bool)
    (set : M unit) (effect : Render.t -> M unit) : M unit :=
  let* old := gets state in
  set >>
  let* new := gets state in
  if changed old new then effect new else ret tt.

Definition find_timer (id : nat) (l : list Timer) : option Timer :=
  List.find (fun t => Nat.eqb (timerId t) id) l.

(** One event of the event loop.  A UI event runs the handler of the latest
    render, whose environment is the committed state; a timer runs the
    callback it was given, with the environment that callback closed over. *)
Definition dispatch (ev : Event) : M unit :=
  match ev with
  | Play => let* e := gets state in playSequence e
  | Stop => stopSequence
  | ChangeWaveform v =>
      rerender (fun o n => negb (String.eqb (Render.waveform o) (Render.waveform n)))
        (setWaveform v) waveformEffect
  | ChangeBpm v => setBpm (clamp v 40 300)
  | ChangeVolume v =>
      rerender (fun o n => negb (Qeq_bool (Render.volume o) (Render.volume n)))
        (setVolume v) volumeEffect
  | ChangeFilter v =>
      rerender (fun o n => negb (Qeq_bool (Render.filter o) (Render.filter n)))
        (setFilter v) filterEffect
  | ChangeReverb v =>
      rerender (fun o n => negb (Qeq_bool (Render.reverb o) (Render.reverb n)))
        (setReverb v) reverbEffect
  | ChangeAdsr field val => let* e := gets state in handleAdsrChange e field val
  | ChangeStep i val => let* e := gets state in handleStepChange e i val
  | TimerFires id =>
      let* l := gets timers in
      match find_timer id l with
      | Some t => clearTimeout id >> timerCallback (env t) (idx t)
      | None => ret tt
      end
  | ClockAdvances dt =>
      if Qle_bool 0 dt
      then modify (fun w => set_currentTime (currentTime w + dt) w)
      else ret tt
  end.

Fixpoint run (evs : list Event) (w : World) : World :=
  match evs with
  | [] => w
  | ev :: evs' => run evs' (world_of (dispatch ev w))
  end.

Inductive reachable : World -> Prop :=
| reachable_init : reachable init
| reachable_step (ev : Event) (w : World) :
    reachable w -> reachable (world_of (dispatch ev w)).

(** ** Voices *)

Definition stopped_by (now : Q) (n : AudioNode) : bool :=
  match stopTime n with
  | Some t => Qle_bool t now
  | None => false
  end.

Definition disconnected (n : AudioNode) : bool :=
  match outputs n with
  | [] => true
  | _ :: _ => false
  end.

(** A voice is live from the creation of its oscillator until the
    oscillator is both stopped and disconnected. *)
Definition live_node (now : Q) (n : AudioNode) : bool :=
  match kind n with
  | Oscillator => negb (stopped_by now n && disconnected n)
  | _ => false
  end.

Definition live (w : World) (id : nat) : bool :=
  match nodes w !! id with
  | Some n => live_node (currentTime w) n
  | None => false
  end.

Definition live_voices (w : World) : list nat :=
  List.filter (live w) (seq 0 (length (nodes w))).

(** ** The worlds the handlers produce, written out

    These are the closed forms of what [stopLastNote], [prepareNote],
    [scheduleNext] and [armEnvelope] leave behind; the lemmas below prove
    that the monadic code computes them. *)

Definition alter_ref (f : AudioNode -> AudioNode) (r : option nat)
    (l : list AudioNode) : list AudioNode :=
  match r with
  | Some id => alter f id l
  | None => l
  end.

Definition torn_nodes (w : World) : list AudioNode :=
  alter_ref (with_outputs (fun _ => [])) (lastFilterRef w)
    (alter_ref (with_outputs (fun _ => [])) (lastGainRef w)
       (alter_ref (with_outputs (fun _ => [])) (lastOscRef w)
          (alter_ref (with_stopTime (Some (currentTime w))) (lastOscRef w)
             (nodes w)))).

(** The world after the teardown block. *)
Definition torn (w : World) : World :=
  mkWorld (state w) (playing w) (currentStep w) (playingRef w)
    (audioCtxRef w) (dryGainRef w) (wetGainRef w) (convolverRef w)
    (stepTimerRef w) None None None
    (currentTime w) (torn_nodes w) (timers w) (nextTimerId w).

(** The four automation points of an envelope armed at [t0]. *)
Definition four_points (e : Render.t) (t0 : Q) : list AutomationEvent :=
  [ SetValueAtTime 0 t0;
    LinearRampToValueAtTime (Render.volume e) (t0 + ADSR.a (Render.adsr e));
    LinearRampToValueAtTime (Render.volume e * ADSR.s (Render.adsr e))
      (t0 + ADSR.a (Render.adsr e) + ADSR.d (Render.adsr e));
    LinearRampToValueAtTime 0
      (t0 + ADSR.a (Render.adsr e) + ADSR.d (Render.adsr e)
          + ADSR.r (Render.adsr e)) ]%Q.

(** The gain parameter after [armEnvelope e _ now]. *)
Definition armed (e : Render.t) (now : Q) (p : AudioParam) : AudioParam :=
  mkParam (value p)
    (List.filter (fun ev => negb (Qle_bool now (event_time ev))) (events p)
       ++ four_points e now).

(** The three nodes of a voice built at store size [n]: oscillator at [n],
    gain at [n + 1], filter at [n + 2]. *)
Definition voice_nodes (e : Render.t) (freq now : Q) (n dry conv : nat)
    : list AudioNode :=
  [ mkNode Oscillator (Render.waveform e) (mkParam freq [])
      (Some now)
      (Some (now + ADSR.a (Render.adsr e) + ADSR.d (Render.adsr e)
                 + ADSR.r (Render.adsr e))%Q)
      [n + 2];
    mkNode Gain "" (mkParam (Render.volume e) (four_points e now))
      None None [dry; conv];
    mkNode BiquadFilter "lowpass" (mkParam (Render.filter e) [])
      None None [n + 1] ].

Definition with_voice (e : Render.t) (freq : Q) (dry conv : nat) (w : World)
    : World :=
  let n := length (nodes w) in
  mkWorld (state w) (playing w) (currentStep w) (playingRef w)
    (audioCtxRef w) (dryGainRef w) (wetGainRef w) (convolverRef w)
    (stepTimerRef w) (Some (n + 1)) (Some n) (Some (n + 2))
    (currentTime w) (nodes w ++ voice_nodes e freq (currentTime w) n dry conv)
    (timers w) (nextTimerId w).

Definition with_timer (e : Render.t) (i : index) (w : World) : World :=
  mkWorld (state w) (playing w) (currentStep w) (playingRef w)
    (audioCtxRef w) (dryGainRef w) (wetGainRef w) (convolverRef w)
    (Some (nextTimerId w)) (lastGainRef w) (lastOscRef w) (lastFilterRef w)
    (currentTime w) (nodes w)
    (timers w ++ [mkTimer (nextTimerId w) (stepMs e) e i])
    (S (nextTimerId w)).

(** ** Invariants *)

(** The persistent graph exists, so no handler meets a [null] ref. *)
Definition ready (w : World) : Prop :=
  audioCtxRef w = true /\ is_Some (dryGainRef w) /\ is_Some (convolverRef w).

(** Every live voice is the one [lastOscRef] points to. *)
Definition only_last_live (w : World) : Prop :=
  forall id : nat, live w id = true -> lastOscRef w = Some id.

Definition Inv (w : World) : Prop := ready w /\ only_last_live w.

(** A slot that triggers no voice: [undefined], empty, or a name the table
    does not hold. *)
Definition rest_slot (e : Render.t) (i : index) : Prop :=
  match steps_get (Render.steps e) i with
  | None => True
  | Some n => n = "" \/ NOTE_FREQS n = None
  end.

(** Two automation points with equal numbers. *)
Definition event_eq (x y : AutomationEvent) : Prop :=
  match x, y with
  | SetValueAtTime v t, SetValueAtTime v' t' => v == v' /\ t == t'
  | LinearRampToValueAtTime v t, LinearRampToValueAtTime v' t' =>
      v == v' /\ t == t'
  | _, _ => False
  end.

(** The world after [stopSequence]. *)
Definition stopped (w : World) : World :=
  mkWorld (state w) false (Int (-1)) false
    (audioCtxRef w) (dryGainRef w) (wetGainRef w) (convolverRef w)
    (stepTimerRef w) None None None
    (currentTime w) (torn_nodes w)
    (match stepTimerRef w with
     | Some id =>
         List.filter (fun t => negb (Nat.eqb (timerId t) id)) (timers w)
     | None => timers w
     end)
    (nextTimerId w).

(** The pending timers: only the one [stepTimerRef] holds, and none while
    the sequencer is stopped. *)
Definition timers_ok (w : World) : Prop :=
  (forall t : Timer, In t (timers w) -> stepTimerRef w = Some (timerId t))
  /\ (playingRef w = false -> timers w = []).

(** A computation whose final world, returned or thrown, is related to
    the initial one by [R]. *)
Definition keeps {A : Type} (R : World -> World -> Prop) (c : M A) : Prop :=
  forall w : World, R w (world_of (c w)).

(** The timer fields are left alone. *)
Definition same_timers (w w' : World) : Prop :=
  timers w' = timers w /\ stepTimerRef w' = stepTimerRef w
  /\ playingRef w' = playingRef w.

(** An update that keeps a node's kind, stop time and outputs. *)
Definition keeps_liveness (f : AudioNode -> AudioNode) : Prop :=
  forall n : AudioNode,
    kind (f n) = kind n /\ stopTime (f n) = stopTime n
    /\ outputs (f n) = outputs n.

(** A computation that, from a world satisfying the invariant, returns in
    a world satisfying it. *)
Definition safe {A : Type} (c : M A) : Prop :=
  forall w : World, Inv w -> exists (x : A) (w' : World), c w = Ok x w' /\ Inv w'.

(** Two worlds with the same audio store except the node [g]. *)
Definition same_nodes_but (g : nat) (w w' : World) : Prop :=
  length (nodes w') = length (nodes w)
  /\ forall id : nat, id <> g -> nodes w' !! id = nodes w !! id.

(** Two nodes that differ at most in their [AudioParam]. *)
Definition same_but_param (n n' : AudioNode) : Prop :=
  kind n' = kind n /\ type n' = type n /\ startTime n' = startTime n
  /\ stopTime n' = stopTime n /\ outputs n' = outputs n.

(** Where the nodes sit in a reachable store: the persistent graph at 1, 2
    and 3 behind the destination, and the voice, when there is one, in three
    consecutive cells behind them. *)
Definition layout (w : World) : Prop :=
  dryGainRef w = Some 1 /\ wetGainRef w = Some 2 /\ convolverRef w = Some 3
  /\ 4 <= length (nodes w)
  /\ ((lastOscRef w = None /\ lastGainRef w = None /\ lastFilterRef w = None)
      \/ exists n : nat,
           4 <= n /\ n + 2 < length (nodes w)
           /\ lastOscRef w = Some n /\ lastGainRef w = Some (n + 1)
           /\ lastFilterRef w = Some (n + 2)).

(** The refs to nodes and the size of the store are left alone. *)
Definition same_refs (w w' : World) : Prop :=
  dryGainRef w' = dryGainRef w /\ wetGainRef w' = wetGainRef w
  /\ convolverRef w' = convolverRef w
  /\ lastOscRef w' = lastOscRef w /\ lastGainRef w' = lastGainRef w
  /\ lastFilterRef w' = lastFilterRef w
  /\ length (nodes w') = length (nodes w).

(** ** One event, written out

    The closed form of what each event does to a reachable world. *)

(** A state update together with an update of the audio store. *)
Definition edited (f : Render.t -> Render.t)
    (upd : list AudioNode -> list AudioNode) (w : World) : World :=
  set_nodes upd (set_state f w).

(** The world after the tick of index [i] run by a closure of environment
    [e], the dry gain being node 1 and the convolver node 3. *)
Definition ticked (e : Render.t) (i : index) (w : World) : World :=
  with_timer e i
    (match note_freq (steps_get (Render.steps e) i) with
     | Some freq => with_voice e freq 1 3 (torn (set_currentStep i w))
     | None => torn (set_currentStep i w)
     end).

Definition changed_string (old new : string) : bool := negb (String.eqb old new).
Definition changed_number (old new : Q) : bool := negb (Qeq_bool old new).

Inductive step (w : World) : Event -> World -> Prop :=
| step_play_playing :
    playingRef w = true -> step w Play w
| step_play :
    playingRef w = false ->
    step w Play
      (ticked (state w) (Int 0) (set_playingRef true (set_playing true w)))
| step_stop : step w Stop (stopped w)
| step_waveform (v : string) :
    step w (ChangeWaveform v)
      (edited (with_waveform v)
         (alter_ref (with_type v)
            (if changed_string (Render.waveform (state w)) v
             then lastOscRef w else None)) w)
| step_bpm (v : Q) :
    step w (ChangeBpm v) (edited (with_bpm (clamp v 40 300)) (fun l => l) w)
| step_volume (v : Q) :
    step w (ChangeVolume v)
      (edited (with_volume v)
         (alter_ref (with_param (fun p => mkParam v (events p)))
            (if changed_number (Render.volume (state w)) v
             then lastGainRef w else None)) w)
| step_filter (v : Q) :
    step w (ChangeFilter v)
      (edited (with_filter v)
         (alter_ref (with_param (fun p => mkParam v (events p)))
            (if changed_number (Render.filter (state w)) v
             then lastFilterRef w else None)) w)
| step_reverb (v : Q) :
    step w (ChangeReverb v)
      (edited (with_reverb v)
         (if changed_number (Render.reverb (state w)) v
          then fun l =>
                 alter (with_param (fun p => mkParam v (events p))) 2
                   (alter (with_param (fun p => mkParam (1 - v)%Q (events p)))
                      1 l)
          else fun l => l) w)
| step_adsr (field : Field) (val : Q) :
    step w (ChangeAdsr field val)
      (edited
         (with_adsr (adsr_with (Render.adsr (state w)) field (clamp val 0 2)))
         (alter_ref (with_param (armed (state w) (currentTime w)))
            (lastGainRef w)) w)
| step_steps (i : nat) (val : string) :
    step w (ChangeStep i val)
      (edited (with_steps (array_set (Render.steps (state w)) i val))
         (fun l => l) w)
| step_timer (id : nat) (t : Timer) :
    find_timer id (timers w) = Some t ->
    playingRef w = true ->
    step w (TimerFires id)
      (ticked (env t) (succ_rem (idx t) (length (Render.steps (env t))))
         (set_timers (fun _ => []) w))
| step_timer_gone (id : nat) :
    find_timer id (timers w) = None -> step w (TimerFires id) w
| step_clock (dt : Q) :
    (0 <= dt)%Q ->
    step w (ClockAdvances dt) (set_currentTime (currentTime w + dt) w)
| step_clock_back (dt : Q) :
    ~ (0 <= dt)%Q -> step w (ClockAdvances dt) w.

(** ** The envelope picture *)

(** App.js 57-73: the five points of the polyline of [ADSRGraph]. *)
Definition ADSRGraph_points (a d s r : Q) : list (Q * Q) :=
  (let totalTime := a + d + r + 0.5 in
   let width := 220 in
   let height := 80 in
   let ax := (a / totalTime) * width in
   let dx := (d / totalTime) * width in
   let sx := width - ax - dx - (r / totalTime) * width in
   let rx := (r / totalTime) * width in
   [ (0, height);
     (ax, 0);
     (ax + dx, height - s * height);
     (ax + dx + sx, height - s * height);
     (width, height) ])%Q.

(** ** The reverb kernel *)

(** App.js 44-55.  [random c i] is what [Math.random()] returns for sample
    [i] of channel [c] and [pow] is [Math.pow]; the buffer is the list of
    its two channels.  The sample rate and the duration are whole numbers
    (the program passes 2 for the duration). *)
Definition createImpulseResponse (random : nat -> nat -> Q)
    (pow : Q -> Q -> Q) (rate duration : nat) (decay : Q) : list (list Q) :=
  let length := rate * duration in
  map (fun c =>
         map (fun i =>
                (random c i * 2 - 1)
                * pow (1 - inject_Z (Z.of_nat i) / inject_Z (Z.of_nat length))
                    decay)%Q
           (seq 0 length))
    (seq 0 2).

(** ** Invariants of the reachable worlds *)

(** The transport: the [playing] state mirrors [playingRef]; while playing
    exactly one timer is pending, the one [stepTimerRef] holds, registered
    by the tick of the published step with the delay of its own
    environment; while stopped nothing is pending, the published step is -1
    and the voice refs are cleared. *)
Definition sync_ok (w : World) : Prop :=
  playing w = playingRef w
  /\ (playingRef w = true ->
      exists t : Timer,
        timers w = [t] /\ stepTimerRef w = Some (timerId t)
        /\ idx t = currentStep w /\ delay t = stepMs (env t))
  /\ (playingRef w = false ->
      timers w = [] /\ currentStep w = Int (-1)
      /\ lastOscRef w = None /\ lastGainRef w = None
      /\ lastFilterRef w = None).

(** The values an environment can hold for the clamped parameters. *)
Definition env_ok (e : Render.t) : Prop :=
  (40 <= Render.bpm e <= 300)%Q
  /\ (forall f : Field, (0 <= adsr_get (Render.adsr e) f <= 2)%Q)
  /\ 16 <= length (Render.steps e).

Definition envs_ok (w : World) : Prop :=
  env_ok (state w) /\ forall t : Timer, In t (timers w) -> env_ok (env t).

(** The persistent graph: destination, dry gain, wet gain and convolver,
    wired as the mount effect left them, the two gains mirroring the
    committed reverb amount. *)
Definition persistent_ok (w : World) : Prop :=
  exists n0 n1 n2 n3 : AudioNode,
    nodes w !! 0 = Some n0 /\ kind n0 = Destination /\ outputs n0 = []
    /\ nodes w !! 1 = Some n1 /\ kind n1 = Gain /\ outputs n1 = [0]
    /\ events (param n1) = []
    /\ value (param n1) == 1 - Render.reverb (state w)
    /\ nodes w !! 2 = Some n2 /\ kind n2 = Gain /\ outputs n2 = [0]
    /\ events (param n2) = []
    /\ value (param n2) == Render.reverb (state w)
    /\ nodes w !! 3 = Some n3 /\ kind n3 = Convolver /\ outputs n3 = [2].

(** The live voice: an oscillator that was started and has a stop time,
    feeding a low-pass filter, feeding a gain, feeding the dry gain and the
    convolver. *)
Definition voice_ok (w : World) : Prop :=
  forall n : nat,
    lastOscRef w = Some n ->
    lastGainRef w = Some (n + 1) /\ lastFilterRef w = Some (n + 2)
    /\ exists o g f : AudioNode,
         nodes w !! n = Some o /\ kind o = Oscillator /\ outputs o = [n + 2]
         /\ is_Some (startTime o) /\ is_Some (stopTime o)
         /\ nodes w !! (n + 1) = Some g /\ kind g = Gain
         /\ outputs g = [1; 3]
         /\ nodes w !! (n + 2) = Some f /\ kind f = BiquadFilter
         /\ type f = "lowpass" /\ outputs f = [n + 1].

(** An update of one node that keeps everything but its type and its
    parameter. *)
Definition keeps_shape (g : AudioNode -> AudioNode) : Prop :=
  forall a : AudioNode,
    kind (g a) = kind a /\ outputs (g a) = outputs a
    /\ startTime (g a) = startTime a /\ stopTime (g a) = stopTime a.

(** The published step is an integer from -1 up, never [NaN], and a
    pending timer belongs to the tick of the published step, which lies
    inside the sequence of the timer's environment. *)
Definition index_ok (w : World) : Prop :=
  exists z : Z,
    currentStep w = Int z /\ (-1 <= z)%Z
    /\ forall t : Timer,
         In t (timers w) ->
         idx t = Int z
         /\ (0 <= z < Z.of_nat (length (Render.steps (env t))))%Z.

(** ** The notes on offer *)

(** App.js 4-8: the options of every step's select, after the empty one. *)
Definition NOTE_LIST : list string :=
  [ "C3"; "C#3"; "D3"; "D#3"; "E3"; "F3"; "F#3"; "G3"; "G#3"; "A3"; "A#3";
    "B3";
    "C4"; "C#4"; "D4"; "D#4"; "E4"; "F4"; "F#4"; "G4"; "G#4"; "A4"; "A#4";
    "B4";
    "C5"; "C#5"; "D5"; "D#5"; "E5"; "F5"; "F#5"; "G5" ].

(** Strictly increasing, by the boolean order of [Q]. *)
Fixpoint increasing (l : list Q) : bool :=
  match l with
  | x :: ((y :: _) as l') => negb (Qle_bool y x) && increasing l'
  | _ => true
  end.

(** ** What the controls deliver

    App.js 26-42 and 291-391.  A [Knob] is a range input with the [min] and
    [max] it is given and hands [Number(e.target.value)] to its [onChange];
    the value of a range input lies between its [min] and [max].  A select
    hands over the value of one of its options; the step selects are
    rendered by [steps.map], one for every index of the committed
    sequence. *)

(** App.js 340-373: the [min] and [max] of the Knob of each ADSR field. *)
Definition knob_min (field : Field) : Q := 0.

Definition knob_max (field : Field) : Q :=
  match field with
  | fs => 1
  | _ => 2
  end.

(** App.js 329-331: the options of the waveform select. *)
Definition WAVEFORMS : list string := [ "sine"; "sawtooth"; "triangle" ].

(** App.js 387-390: the options of a step select. *)
Definition STEP_OPTIONS : list string := "" :: NOTE_LIST.

(** The event is one that the controls rendered for the world [w] can
    deliver.  The transport button, the timers and the clock are not
    restricted. *)
Definition control_event (w : World) (ev : Event) : Prop :=
  match ev with
  | ChangeWaveform v => In v WAVEFORMS
  | ChangeBpm v => (40 <= v <= 300)%Q
  | ChangeVolume v => (0 <= v <= 1)%Q
  | ChangeFilter v => (20 <= v <= 20000)%Q
  | ChangeReverb v => (0 <= v <= 1)%Q
  | ChangeAdsr field v => (knob_min field <= v <= knob_max field)%Q
  | ChangeStep i val =>
      i < length (Render.steps (state w)) /\ In val STEP_OPTIONS
  | _ => True
  end.

(** Every event of the run is delivered by the controls of the world it
    reaches. *)
Fixpoint delivered (evs : list Event) (w : World) : Prop :=
  match evs with
  | [] => True
  | ev :: evs' =>
      control_event w ev /\ delivered evs' (world_of (dispatch ev w))
  end.

(** An environment whose values all lie in the ranges of their controls. *)
Definition in_control_range (e : Render.t) : Prop :=
  In (Render.waveform e) WAVEFORMS
  /\ (40 <= Render.bpm e <= 300)%Q
  /\ (0 <= Render.volume e <= 1)%Q
  /\ (20 <= Render.filter e <= 20000)%Q
  /\ (0 <= Render.reverb e <= 1)%Q
  /\ (forall field : Field,
        (knob_min field <= adsr_get (Render.adsr e) field
           <= knob_max field)%Q)
  /\ length (Render.steps e) = 16
  /\ Forall (fun s : slot => exists n : string, s = Some n /\ In n STEP_OPTIONS)
       (Render.steps e).

(** The property names a plain object inherits from [Object.prototype].
    [NOTE_FREQS[note]] finds them through the prototype chain, where they
    hold functions (an object for [__proto__]); the model of [NOTE_FREQS]
    is the table's own keys, so a statement about a name outside the table
    leaves these names out.  None of them is an option of a step select. *)
Definition Object_prototype_names : list string :=
  [ "constructor"; "hasOwnProperty"; "isPrototypeOf"; "propertyIsEnumerable";
    "toLocaleString"; "toString"; "valueOf"; "__proto__";
    "__defineGetter__"; "__defineSetter__"; "__lookupGetter__";
    "__lookupSetter__" ].

(** The state and the environment of every pending timer lie in the ranges
    of the controls. *)
Definition controls_ok (w : World) : Prop :=
  in_control_range (state w)
  /\ forall t : Timer, In t (timers w) -> in_control_range (env t).

(** ** The handlers compute the closed forms *)

Lemma alter_at_end {A : Type} (f : A -> A) (l r : list A) (k : nat) :
  alter f (length l + k) (l ++ r) = l ++ alter f k r.
Proof. apply alter_app_r. Qed.

Lemma alter_at_end0 {A : Type} (f : A -> A) (l r : list A) :
  alter f (length l) (l ++ r) = l ++ alter f 0 r.
Proof. rewrite <- (Nat.add_0_r (length l)) at 1. apply alter_app_r. Qed.

Lemma bind_gets {A B : Type} (f : World -> A) (k : A -> M B) (w : World) :
  bind (gets f) k w = k (f w) w.
Proof. reflexivity. Qed.

Lemma bind_modify {B : Type} (f : World -> World) (k : unit -> M B)
    (w : World) :
  bind (modify f) k w = k tt (f w).
Proof. reflexivity. Qed.

Lemma bind_ret {A B : Type} (x : A) (k : A -> M B) (w : World) :
  bind (ret x) k w = k x w.
Proof. reflexivity. Qed.

Lemma bind_bind {A B C : Type} (c : M A) (k : A -> M B) (h : B -> M C)
    (w : World) :
  bind (bind c k) h w = bind c (fun x => bind (k x) h) w.
Proof. unfold bind. destruct (c w); reflexivity. Qed.

Lemma bind_Ok {A B : Type} (c : M A) (k : A -> M B) (w w1 : World) (x : A) :
  c w = Ok x w1 -> bind c k w = k x w1.
Proof. intros E. unfold bind. rewrite E. reflexivity. Qed.

Ltac step :=
  repeat first [ rewrite bind_bind | rewrite bind_gets | rewrite bind_modify
               | rewrite bind_ret ].

Ltac unfold_ops :=
  unfold bind, createNode, gets, modify, ret, throw, when_some,
    set_nodes, set_lastOscRef, set_lastGainRef, set_lastFilterRef,
    set_stepTimerRef, set_timers, set_nextTimerId, set_currentStep,
    set_playing, set_playingRef, set_state, set_currentTime.

Lemma stopLastNote_spec (w : World) : stopLastNote w = Ok tt (torn w).
Proof.
  destruct w as [? ? ? ? ? ? ? ? ? [g|] [o|] [f|] ? ? ? ?]; reflexivity.
Qed.

Lemma prepareNote_voice (e : Render.t) (i : index) (w : World) (freq : Q)
    (dry conv : nat) :
  note_freq (steps_get (Render.steps e) i) = Some freq ->
  audioCtxRef w = true ->
  dryGainRef w = Some dry ->
  convolverRef w = Some conv ->
  prepareNote e i w = Ok tt (with_voice e freq dry conv w).
Proof.
  intros Hn Hc Hd Hv. unfold prepareNote. rewrite Hn.
  destruct w as [? ? ? ? ? ? ? ? ? ? ? ? now l ? ?]. simpl in *. subst.
  unfold_ops. simpl.
  unfold with_voice, voice_nodes, four_points. simpl.
  rewrite ?length_app. simpl. rewrite <- ?app_assoc. simpl.
  rewrite <- ?Nat.add_assoc. simpl.
  repeat (first [rewrite alter_at_end | rewrite alter_at_end0]; simpl).
  reflexivity.
Qed.

Lemma prepareNote_rest (e : Render.t) (i : index) (w : World) :
  note_freq (steps_get (Render.steps e) i) = None ->
  prepareNote e i w = Ok tt w.
Proof. intros Hn. unfold prepareNote. rewrite Hn. reflexivity. Qed.

Lemma scheduleNext_spec (e : Render.t) (i : index) (w : World) :
  scheduleNext e i w = Ok tt (with_timer e i w).
Proof. reflexivity. Qed.

Lemma nextStep_voice (e : Render.t) (i : index) (w : World) (freq : Q)
    (dry conv : nat) :
  note_freq (steps_get (Render.steps e) i) = Some freq ->
  audioCtxRef w = true ->
  dryGainRef w = Some dry ->
  convolverRef w = Some conv ->
  nextStep e i w =
    Ok tt (with_timer e i
             (with_voice e freq dry conv (torn (set_currentStep i w)))).
Proof.
  intros Hn Hc Hd Hv. unfold nextStep, bind at 1 2 3.
  unfold setCurrentStep, modify at 1.
  rewrite stopLastNote_spec.
  rewrite (prepareNote_voice e i _ freq dry conv Hn); try assumption.
  reflexivity.
Qed.

Lemma nextStep_rest (e : Render.t) (i : index) (w : World) :
  note_freq (steps_get (Render.steps e) i) = None ->
  nextStep e i w = Ok tt (with_timer e i (torn (set_currentStep i w))).
Proof.
  intros Hn. unfold nextStep, bind at 1 2 3.
  unfold setCurrentStep, modify at 1.
  rewrite stopLastNote_spec, (prepareNote_rest e i _ Hn). reflexivity.
Qed.

Lemma rest_slot_no_freq (e : Render.t) (i : index) :
  rest_slot e i -> note_freq (steps_get (Render.steps e) i) = None.
Proof.
  unfold rest_slot, note_freq.
  destruct (steps_get (Render.steps e) i) as [n|]; [|reflexivity].
  intros [-> | Hn]; [reflexivity|].
  rewrite Hn. destruct (String.eqb n ""); reflexivity.
Qed.

Lemma with_param_compose (f g : AudioParam -> AudioParam) (n : AudioNode) :
  with_param f (with_param g n) = with_param (fun p => f (g p)) n.
Proof. reflexivity. Qed.

Lemma armEnvelope_spec (e : Render.t) (g : nat) (now : Q) (w : World) :
  armEnvelope e g now w =
    Ok tt (set_nodes (alter (with_param (armed e now)) g) w).
Proof.
  unfold armEnvelope, cancelScheduledValues, linearRampToValueAtTime,
    setValueAtTime, schedule, update_node.
  unfold_ops. simpl. f_equal. f_equal.
  rewrite !list_alter_alter_eq.
  apply list_alter_ext; [|reflexivity].
  intros n _. unfold compose, armed, four_points. simpl.
  unfold with_param. simpl. rewrite <- !app_assoc. reflexivity.
Qed.

(** ** Liveness through the handlers *)

Lemma lookup_alter_ref (f : AudioNode -> AudioNode) (r : option nat)
    (l : list AudioNode) (id : nat) :
  alter_ref f r l !! id =
    if decide (r = Some id) then f <$> l !! id else l !! id.
Proof.
  destruct r as [j|]; unfold alter_ref.
  - rewrite list_lookup_alter.
    repeat case_decide; try congruence; subst; reflexivity.
  - case_decide; [discriminate|reflexivity].
Qed.

Lemma length_alter_ref (f : AudioNode -> AudioNode) (r : option nat)
    (l : list AudioNode) :
  length (alter_ref f r l) = length l.
Proof. destruct r; simpl; [apply length_alter | reflexivity]. Qed.

Lemma length_torn_nodes (w : World) : length (torn_nodes w) = length (nodes w).
Proof. unfold torn_nodes. rewrite !length_alter_ref. reflexivity. Qed.

Lemma Qle_bool_refl (x : Q) : Qle_bool x x = true.
Proof. apply Qle_bool_iff, Qle_refl. Qed.

Lemma live_node_disconnect (now : Q) (n : AudioNode) :
  live_node now (with_outputs (fun _ => []) n) = true ->
  live_node now n = true.
Proof.
  unfold live_node, stopped_by, disconnected. simpl.
  destruct (kind n); try discriminate.
  destruct (stopTime n) as [t|]; [|reflexivity].
  destruct (Qle_bool t now); [discriminate|reflexivity].
Qed.

Lemma live_node_stop_disconnect (now : Q) (n : AudioNode) :
  stopTime n = Some now -> outputs n = [] -> live_node now n = false.
Proof.
  intros Hs Ho. unfold live_node, stopped_by, disconnected.
  rewrite Hs, Ho, Qle_bool_refl. destruct (kind n); reflexivity.
Qed.

(** The torn-down world: what was [lastOscRef] is not live, and nothing
    became live. *)
Lemma live_torn (w : World) (id : nat) :
  live (torn w) id = true -> live w id = true /\ lastOscRef w <> Some id.
Proof.
  unfold live. simpl. unfold torn_nodes. rewrite !lookup_alter_ref.
  destruct (nodes w !! id) as [n|] eqn:Hn;
    [|repeat case_decide; simpl; discriminate].
  destruct (decide (lastOscRef w = Some id)) as [Ho|Ho].
  - simpl. intros H. exfalso.
    repeat case_decide; simpl in H;
      rewrite live_node_stop_disconnect in H by reflexivity; discriminate.
  - intros H. split; [|assumption].
    repeat case_decide; simpl in H;
      repeat (apply live_node_disconnect in H); assumption.
Qed.

Lemma torn_none_live (w : World) :
  only_last_live w -> forall id : nat, live (torn w) id = false.
Proof.
  intros Hw id. destruct (live (torn w) id) eqn:E; [|reflexivity].
  apply live_torn in E as [E1 E2]. apply Hw in E1. contradiction.
Qed.

Lemma live_with_voice (e : Render.t) (freq : Q) (dry conv : nat) (w : World)
    (id : nat) :
  live (with_voice e freq dry conv w) id = true ->
  live w id = true \/ id = length (nodes w).
Proof.
  unfold live. simpl. intros H.
  destruct (decide (id < length (nodes w))) as [Hlt|Hge].
  - rewrite lookup_app_l in H by assumption. left. assumption.
  - right. rewrite lookup_app_r in H by lia.
    destruct (id - length (nodes w)) as [|[|[|k]]] eqn:Hk; simpl in H;
      try discriminate. lia.
Qed.

Lemma live_with_voice_new (e : Render.t) (freq : Q) (dry conv : nat)
    (w : World) :
  live (with_voice e freq dry conv w) (length (nodes w)) = true.
Proof.
  unfold live. simpl. rewrite lookup_app_r by lia.
  rewrite Nat.sub_diag. simpl. unfold live_node. simpl.
  apply negb_true_iff, andb_false_r.
Qed.

Lemma live_alter_keeps (f : AudioNode -> AudioNode) (g : nat) (w : World)
    (id : nat) :
  keeps_liveness f ->
  live (set_nodes (alter f g) w) id = live w id.
Proof.
  intros Hf. unfold live. simpl. rewrite list_lookup_alter.
  destruct (decide (g = id)) as [->|]; [|reflexivity].
  destruct (nodes w !! id) as [n|]; [|reflexivity]. simpl.
  destruct (Hf n) as (Hk & Hs & Ho).
  unfold live_node, stopped_by, disconnected. rewrite Hk, Hs, Ho. reflexivity.
Qed.

Lemma keeps_with_param (f : AudioParam -> AudioParam) :
  keeps_liveness (with_param f).
Proof. intros n. repeat split. Qed.

Lemma keeps_with_type (t : string) : keeps_liveness (with_type t).
Proof. intros n. repeat split. Qed.

Lemma stopped_by_later (now dt : Q) (n : AudioNode) :
  (0 <= dt)%Q -> stopped_by now n = true -> stopped_by (now + dt) n = true.
Proof.
  intros Hdt. unfold stopped_by. destruct (stopTime n) as [t|]; [|discriminate].
  rewrite !Qle_bool_iff. intros H.
  apply Qle_trans with (y := now); [assumption|].
  rewrite <- (Qplus_0_r now) at 1. apply Qplus_le_r. assumption.
Qed.

Lemma live_later (w : World) (dt : Q) (id : nat) :
  (0 <= dt)%Q ->
  live (set_currentTime (currentTime w + dt) w) id = true ->
  live w id = true.
Proof.
  intros Hdt. unfold live. simpl.
  destruct (nodes w !! id) as [n|]; [|discriminate].
  unfold live_node. destruct (kind n); try discriminate.
  destruct (stopped_by (currentTime w) n) eqn:Hs; [|reflexivity].
  rewrite (stopped_by_later _ _ _ Hdt Hs). trivial.
Qed.

(** ** The invariant holds in every reachable world *)

Lemma Inv_ext (w w' : World) :
  audioCtxRef w' = audioCtxRef w ->
  dryGainRef w' = dryGainRef w ->
  convolverRef w' = convolverRef w ->
  lastOscRef w' = lastOscRef w ->
  (forall id : nat, live w' id = live w id) ->
  Inv w -> Inv w'.
Proof.
  intros Hc Hd Hv Ho Hl [(Rc & Rd & Rv) Hw]. split.
  - unfold ready. rewrite Hc, Hd, Hv. auto.
  - intros id H. rewrite Ho. apply Hw. rewrite <- Hl. assumption.
Qed.

Lemma safe_ret {A : Type} (x : A) : safe (ret x).
Proof. intros w HI. exists x, w. auto. Qed.

Lemma safe_gets {A : Type} (f : World -> A) : safe (gets f).
Proof. intros w HI. exists (f w), w. auto. Qed.

Lemma safe_bind {A B : Type} (c : M A) (k : A -> M B) :
  safe c -> (forall x : A, safe (k x)) -> safe (bind c k).
Proof.
  intros Hc Hk w HI. destruct (Hc w HI) as (x & w1 & E1 & H1).
  destruct (Hk x w1 H1) as (y & w2 & E2 & H2).
  exists y, w2. unfold bind. rewrite E1. auto.
Qed.

Lemma safe_modify (f : World -> World) :
  (forall w : World, Inv w -> Inv (f w)) -> safe (modify f).
Proof. intros Hf w HI. exists tt, (f w). auto. Qed.

Lemma safe_when_some {A : Type} (o : option A) (k : A -> M unit) :
  (forall x : A, safe (k x)) -> safe (when_some o k).
Proof. intros Hk. destruct o; [apply Hk|apply safe_ret]. Qed.

Lemma safe_update_node (id : nat) (f : AudioNode -> AudioNode) :
  keeps_liveness f -> safe (update_node id f).
Proof.
  intros Hf. apply safe_modify. intros w. apply Inv_ext; try reflexivity.
  intros j. apply live_alter_keeps. assumption.
Qed.

Lemma safe_stopLastNote : safe stopLastNote.
Proof.
  intros w [Hr Hw]. exists tt, (torn w). split; [apply stopLastNote_spec|].
  split; [exact Hr|].
  intros id H. rewrite torn_none_live in H by assumption. discriminate.
Qed.

Lemma safe_nextStep (e : Render.t) (i : index) : safe (nextStep e i).
Proof.
  intros w HI. exists tt.
  destruct HI as [(Hc & [dry Hd] & [conv Hv]) Hw].
  assert (Hw' : only_last_live (set_currentStep i w)) by exact Hw.
  destruct (note_freq (steps_get (Render.steps e) i)) as [freq|] eqn:Hn.
  - rewrite (nextStep_voice e i w freq dry conv Hn Hc Hd Hv).
    eexists. split; [reflexivity|]. split.
    + repeat split; simpl; [exact Hc | rewrite Hd | rewrite Hv]; eauto.
    + intros id H.
      change (live (with_voice e freq dry conv (torn (set_currentStep i w))) id
              = true) in H.
      apply live_with_voice in H as [H| ->]; [|reflexivity].
      rewrite torn_none_live in H by assumption. discriminate.
  - rewrite (nextStep_rest e i w Hn).
    eexists. split; [reflexivity|]. split.
    + repeat split; simpl; [exact Hc | rewrite Hd | rewrite Hv]; eauto.
    + intros id H.
      change (live (torn (set_currentStep i w)) id = true) in H.
      rewrite torn_none_live in H by assumption. discriminate.
Qed.

Lemma live_append_silent (w : World) (k : NodeKind) (id : nat) :
  k <> Oscillator ->
  live (set_nodes (fun l => l ++ [default_node k]) w) id = live w id.
Proof.
  intros Hk. unfold live. simpl.
  destruct (decide (id < length (nodes w))) as [Hlt|Hge].
  - rewrite lookup_app_l by assumption. reflexivity.
  - rewrite lookup_app_r, (lookup_ge_None_2 (nodes w)) by lia.
    destruct (id - length (nodes w)) as [|j]; [|reflexivity].
    simpl. destruct k; try reflexivity. contradiction.
Qed.

Lemma safe_newAudioContext : safe newAudioContext.
Proof.
  apply safe_modify. intros w [(Hc & Hd & Hv) Hw]. split.
  - repeat split; assumption.
  - intros id H.
    change (live (set_nodes (fun l => l ++ [default_node Destination]) w) id
            = true) in H.
    rewrite live_append_silent in H by discriminate. apply Hw, H.
Qed.

Ltac safe_frame :=
  apply safe_modify; intros ?; apply Inv_ext; reflexivity.

Ltac safe_auto :=
  repeat first
    [ apply safe_ret | apply safe_gets | safe_frame
    | apply safe_nextStep | apply safe_stopLastNote
    | apply safe_newAudioContext
    | apply safe_update_node; intros ?; repeat split
    | apply safe_when_some; intros ?
    | apply safe_bind; [|intros ?]
    | match goal with |- safe (if ?b then _ else _) => destruct b end
    | match goal with |- safe (match ?o with Some _ => _ | None => _ end) =>
        destruct o end ].

Lemma safe_armEnvelope (e : Render.t) (g : nat) (now : Q) :
  safe (armEnvelope e g now).
Proof.
  unfold armEnvelope, cancelScheduledValues, setValueAtTime,
    linearRampToValueAtTime, schedule. safe_auto.
Qed.

Lemma safe_playSequence (e : Render.t) : safe (playSequence e).
Proof. unfold playSequence, setPlaying, setCurrentStep. safe_auto. Qed.

Lemma safe_stopSequence : safe stopSequence.
Proof.
  unfold stopSequence, setPlaying, setCurrentStep, clearTimeout. safe_auto.
Qed.

Lemma safe_dispatch (ev : Event) : safe (dispatch ev).
Proof.
  destruct ev; unfold dispatch.
  - safe_auto.
  - apply safe_stopSequence.
  - unfold rerender, setWaveform, waveformEffect, set_type. safe_auto.
  - unfold setBpm. safe_auto.
  - unfold rerender, setVolume, volumeEffect, set_value. safe_auto.
  - unfold rerender, setFilter, filterEffect, set_value. safe_auto.
  - unfold rerender, setReverb, reverbEffect, set_value. safe_auto.
  - unfold handleAdsrChange, setAdsr. safe_auto.
  - unfold handleStepChange, setSteps. safe_auto.
  - unfold clearTimeout, timerCallback. safe_auto.
  - destruct (Qle_bool 0 dt) eqn:Hdt; [|apply safe_ret].
    apply Qle_bool_iff in Hdt. apply safe_modify.
    intros w [Hr Hw]. split; [exact Hr|].
    intros id H. apply (live_later w dt id Hdt) in H. apply Hw in H. exact H.
Qed.

Lemma Inv_init : Inv init.
Proof.
  split.
  - repeat split; vm_compute; eauto.
  - intros [|[|[|[|id]]]]; vm_compute; discriminate.
Qed.

Lemma reachable_Inv (w : World) : reachable w -> Inv w.
Proof.
  induction 1 as [|ev w _ IH]; [apply Inv_init|].
  destruct (safe_dispatch ev w IH) as (x & w' & -> & HI). exact HI.
Qed.

Lemma at_most_one_live (w : World) :
  only_last_live w -> length (live_voices w) <= 1.
Proof.
  intros Hw. unfold live_voices.
  assert (Hnd : List.NoDup (List.filter (live w) (seq 0 (length (nodes w)))))
    by (apply List.NoDup_filter, List.seq_NoDup).
  assert (Hall : forall x, In x (List.filter (live w) (seq 0 (length (nodes w))))
                           -> lastOscRef w = Some x).
  { intros x Hx. apply List.filter_In in Hx as [_ Hx]. apply Hw, Hx. }
  destruct (List.filter (live w) (seq 0 (length (nodes w)))) as [|a [|b l]];
    simpl; [lia|lia|].
  exfalso. assert (a = b).
  { assert (Ha := Hall a (or_introl eq_refl)).
    assert (Hb := Hall b (or_intror (or_introl eq_refl))). congruence. }
  subst. apply List.NoDup_cons_iff in Hnd as [Hnd _]. apply Hnd. left.
  reflexivity.
Qed.

(** ** Frames: what a handler leaves alone *)

Section Frame.

Variable R : World -> World -> Prop.
Hypothesis R_refl : forall w : World, R w w.
Hypothesis R_trans : forall a b c : World, R a b -> R b c -> R a c.

Lemma keeps_ret {A : Type} (x : A) : keeps R (ret x).
Proof. intros w. apply R_refl. Qed.

Lemma keeps_gets {A : Type} (f : World -> A) : keeps R (gets f).
Proof. intros w. apply R_refl. Qed.

Lemma keeps_modify (f : World -> World) :
  (forall w : World, R w (f w)) -> keeps R (modify f).
Proof. intros Hf w. apply Hf. Qed.

Lemma keeps_bind {A B : Type} (c : M A) (k : A -> M B) :
  keeps R c -> (forall x : A, keeps R (k x)) -> keeps R (bind c k).
Proof.
  intros Hc Hk w. specialize (Hc w). unfold bind.
  destruct (c w) as [x w1|msg w1]; simpl in *; [|exact Hc].
  apply R_trans with (b := w1); [exact Hc|apply Hk].
Qed.

Lemma keeps_when_some {A : Type} (o : option A) (k : A -> M unit) :
  (forall x : A, keeps R (k x)) -> keeps R (when_some o k).
Proof. intros Hk. destruct o; [apply Hk|apply keeps_ret]. Qed.

End Frame.

Ltac keeps_auto Rrefl Rtrans :=
  repeat match goal with
    | |- keeps _ (ret _) => apply (keeps_ret _ Rrefl)
    | |- keeps _ (gets _) => apply (keeps_gets _ Rrefl)
    | |- keeps _ (modify _) => apply keeps_modify; intros ?
    | |- keeps _ (when_some _ _) => apply (keeps_when_some _ Rrefl); intros ?
    | |- keeps _ (bind _ _) => apply (keeps_bind _ Rtrans); [|intros ?]
    | |- keeps _ (if ?b then _ else _) => destruct b
    | |- keeps _ (match ?o with Some _ => _ | None => _ end) => destruct o
    end.

Lemma filter_none {A : Type} (f : A -> bool) (l : list A) :
  (forall x : A, f x = false) -> List.filter f l = [].
Proof.
  intros Hf. induction l as [|x l IH]; [reflexivity|].
  simpl. rewrite Hf. exact IH.
Qed.


Lemma reachable_run (evs : list Event) (w : World) :
  reachable w -> reachable (run evs w).
Proof.
  revert w. induction evs as [|ev evs IH]; intros w Hw; [exact Hw|].
  simpl. apply IH, reachable_step, Hw.
Qed.

(** What every tick leaves behind, voice or rest. *)
Lemma nextStep_fields (e : Render.t) (i : index) (w : World) :
  ready w ->
  exists w' : World,
    nextStep e i w = Ok tt w'
    /\ state w' = state w /\ playing w' = playing w
    /\ playingRef w' = playingRef w /\ currentStep w' = i
    /\ currentTime w' = currentTime w
    /\ stepTimerRef w' = Some (nextTimerId w)
    /\ timers w' = timers w ++ [mkTimer (nextTimerId w) (stepMs e) e i].
Proof.
  intros (Hc & [dry Hd] & [conv Hv]).
  destruct (note_freq (steps_get (Render.steps e) i)) as [freq|] eqn:Hn.
  - rewrite (nextStep_voice e i w freq dry conv Hn Hc Hd Hv).
    eexists. split; [reflexivity|]. repeat split.
  - rewrite (nextStep_rest e i w Hn).
    eexists. split; [reflexivity|]. repeat split.
Qed.

(** ** The claims *)

(** C1. Monophonic invariant.  In a reachable world, a tick first runs the
    teardown, which leaves a world with no live voice and with no node
    allocated yet; the construction of the new voice and the scheduling of
    the next tick run from that world; and when the tick returns at most
    one voice is live. *)
Theorem monophonic_after_tick (e : Render.t) (i : index) (w : World) :
  reachable w ->
  exists w' : World,
    nextStep e i w = Ok tt w'
    /\ (setCurrentStep i >> stopLastNote) w
         = Ok tt (torn (set_currentStep i w))
    /\ live_voices (torn (set_currentStep i w)) = []
    /\ length (nodes (torn (set_currentStep i w))) = length (nodes w)
    /\ (prepareNote e i >> scheduleNext e i) (torn (set_currentStep i w))
         = Ok tt w'
    /\ length (live_voices w') <= 1.
Proof.
  intros Hr. apply reachable_Inv in Hr.
  destruct (safe_nextStep e i w Hr) as ([] & w' & E & HI').
  exists w'. split; [exact E|].
  assert (E1 : (setCurrentStep i >> stopLastNote) w
               = Ok tt (torn (set_currentStep i w))).
  { unfold setCurrentStep. step. apply stopLastNote_spec. }
  split; [exact E1|]. split; [|split; [|split]].
  - apply filter_none. intros id. apply torn_none_live. exact (proj2 Hr).
  - exact (length_torn_nodes (set_currentStep i w)).
  - rewrite <- E. unfold nextStep, setCurrentStep. rewrite bind_modify.
    exact (eq_sym (bind_Ok stopLastNote
                     (fun _ => prepareNote e i >> scheduleNext e i)
                     _ _ tt (stopLastNote_spec _))).
  - apply at_most_one_live, HI'.
Qed.

Lemma monophonic_after_tick_witness :
  reachable (run [Play] init)
  /\ exists w' : World,
       nextStep initialState (Int 1) (run [Play] init) = Ok tt w'
       /\ length (live_voices w') <= 1.
Proof.
  split; [apply reachable_run, reachable_init|].
  destruct (monophonic_after_tick initialState (Int 1) (run [Play] init)
              (reachable_run [Play] init reachable_init))
    as (w' & E & _ & _ & _ & _ & H).
  exists w'. split; assumption.
Defined.

Lemma ready_init : ready init.
Proof. repeat split; vm_compute; eauto. Qed.

(** C2. A trigger arms the new voice's gain with exactly four points: value
    0 at [t0], then linear ramps to [v] at [t0 + a], to [v * s] at
    [t0 + a + d] and to 0 at [t0 + a + d + r], where [t0] is the audio
    clock at the trigger.  The scheduler itself first cancels what is
    scheduled at or after the anchor and keeps what is before it.  For
    a=0.01, d=0.1, s=0.7, r=0.2 and v=0.5 the points are [(t0, 0)],
    [(t0+0.01, 0.5)], [(t0+0.11, 0.35)], [(t0+0.31, 0)]. *)
Theorem trigger_schedules_four_points (e : Render.t) (i : index) (w : World)
    (freq : Q) :
  ready w ->
  note_freq (steps_get (Render.steps e) i) = Some freq ->
  let t0 := currentTime w in
  let v := Render.volume e in
  let a := ADSR.a (Render.adsr e) in
  let d := ADSR.d (Render.adsr e) in
  let s := ADSR.s (Render.adsr e) in
  let r := ADSR.r (Render.adsr e) in
  exists (w' : World) (g : nat) (n : AudioNode),
    nextStep e i w = Ok tt w'
    /\ lastGainRef w' = Some g /\ nodes w' !! g = Some n /\ kind n = Gain
    /\ events (param n) =
         [ SetValueAtTime 0 t0;
           LinearRampToValueAtTime v (t0 + a);
           LinearRampToValueAtTime (v * s) (t0 + a + d);
           LinearRampToValueAtTime 0 (t0 + a + d + r) ]%Q
    /\ (forall (w0 : World) (g0 : nat) (n0 : AudioNode) (t : Q),
          nodes w0 !! g0 = Some n0 ->
          exists (w1 : World) (n1 : AudioNode),
            armEnvelope e g0 t w0 = Ok tt w1 /\ nodes w1 !! g0 = Some n1
            /\ events (param n1) =
                 (List.filter (fun ev => negb (Qle_bool t (event_time ev)))
                    (events (param n0))
                  ++ [ SetValueAtTime 0 t;
                       LinearRampToValueAtTime v (t + a);
                       LinearRampToValueAtTime (v * s) (t + a + d);
                       LinearRampToValueAtTime 0 (t + a + d + r) ])%Q)
    /\ (v = 0.5%Q -> Render.adsr e = ADSR.mk 0.01 0.1 0.7 0.2 ->
        Forall2 event_eq (events (param n))
          [ SetValueAtTime 0 t0;
            LinearRampToValueAtTime 0.5 (t0 + 0.01);
            LinearRampToValueAtTime 0.35 (t0 + 0.11);
            LinearRampToValueAtTime 0 (t0 + 0.31) ]%Q).
Proof.
  intros (Hc & [dry Hd] & [conv Hv]) Hn t0 v a d s r.
  rewrite (nextStep_voice e i w freq dry conv Hn Hc Hd Hv).
  eexists. exists (length (nodes w) + 1).
  eexists. split; [reflexivity|]. split; [simpl|split; [simpl|]].
  - rewrite length_torn_nodes. reflexivity.
  - rewrite lookup_app_r by (rewrite length_torn_nodes; simpl; lia).
    rewrite length_torn_nodes. simpl.
    replace (length (nodes w) + 1 - length (nodes w)) with 1 by lia.
    reflexivity.
  - split; [reflexivity|]. split; [reflexivity|]. split.
    + intros w0 g0 n0 t H0. rewrite armEnvelope_spec.
      eexists. eexists. split; [reflexivity|]. split.
      * simpl. rewrite list_lookup_alter_eq, H0. reflexivity.
      * reflexivity.
    + subst v a d s r. intros Hvol Hadsr. cbn [events param].
      unfold four_points. rewrite Hvol, Hadsr. cbn [ADSR.a ADSR.d ADSR.s ADSR.r].
      subst t0. do 4 (constructor; [simpl; split; ring|]). constructor.
Qed.

Lemma trigger_schedules_four_points_witness :
  ready init
  /\ note_freq (steps_get (Render.steps initialState) (Int 0)) = Some 164.81%Q
  /\ exists (w' : World) (g : nat) (n : AudioNode),
       nextStep initialState (Int 0) init = Ok tt w'
       /\ lastGainRef w' = Some g /\ nodes w' !! g = Some n
       /\ events (param n) =
            [ SetValueAtTime 0 0;
              LinearRampToValueAtTime 0.5 (0 + 0.01);
              LinearRampToValueAtTime (0.5 * 0.7) (0 + 0.01 + 0.1);
              LinearRampToValueAtTime 0 (0 + 0.01 + 0.1 + 0.2) ]%Q
       /\ Forall2 event_eq (events (param n))
            [ SetValueAtTime 0 0;
              LinearRampToValueAtTime 0.5 (0 + 0.01);
              LinearRampToValueAtTime 0.35 (0 + 0.11);
              LinearRampToValueAtTime 0 (0 + 0.31) ]%Q.
Proof.
  split; [exact ready_init|]. split; [reflexivity|].
  destruct (trigger_schedules_four_points initialState (Int 0) init 164.81%Q
              ready_init eq_refl)
    as (w' & g & n & E & Hg & Hn & _ & H & _ & H').
  exists w', g, n. repeat (split; [assumption|]).
  exact (H' eq_refl eq_refl).
Defined.

(** The timer a tick registers carries the environment of the closure that
    ran the tick, and its callback runs the next tick in that same
    environment: the environment of a playback run never changes. *)
Lemma tick_keeps_environment (e : Render.t) (i : index) (w : World) :
  ready w ->
  exists w' : World,
    nextStep e i w = Ok tt w'
    /\ timers w' = timers w ++ [mkTimer (nextTimerId w) (stepMs e) e i]
    /\ forall w2 : World,
         playingRef w2 = true ->
         timerCallback e i w2
           = nextStep e (succ_rem i (length (Render.steps e))) w2.
Proof.
  intros Hr. destruct (nextStep_fields e i w Hr)
    as (w' & E & _ & _ & _ & _ & _ & _ & Ht).
  exists w'. split; [exact E|]. split; [exact Ht|].
  intros w2 Hp. unfold timerCallback. rewrite bind_gets, Hp. reflexivity.
Qed.

(** C3, at a failing input.  Play at 120 bpm, then set the tempo to 60 and
    clear step 1 while timer 1 is pending.  When timer 1 fires, the
    committed tempo is 60 (a sixteenth is 250 ms) and the committed step 1
    is empty, yet the tick schedules its successor after 125 ms and builds
    a voice for the E3 that step 1 held when play() ran: the tick reads the
    constants of the render in which play() was called. *)
Theorem tick_reads_tempo_of_play_render :
  let w1 := run [Play] init in
  let w2 := run [ChangeBpm 60; ChangeStep 1 ""] w1 in
  let w3 := run [TimerFires 1] w2 in
  find_timer 1 (timers w2)
    = Some (mkTimer 1 (stepMs initialState) initialState (Int 0))
  /\ Render.bpm (state w3) = 60%Q
  /\ stepMs (state w3) == 250
  /\ steps_get (Render.steps (state w3)) (Int 1) = Some ""
  /\ currentStep w3 = Int 1
  /\ (exists t : Timer,
        timers w3 = [t] /\ delay t == 125 /\ ~ delay t == stepMs (state w3)
        /\ Render.bpm (env t) = 120%Q)
  /\ (exists (o : nat) (n : AudioNode),
        lastOscRef w3 = Some o /\ nodes w3 !! o = Some n
        /\ value (param n) = 164.81%Q).
Proof.
  vm_compute. repeat split; try reflexivity.
  - eexists. repeat split; try reflexivity; discriminate.
  - eexists. eexists. repeat split; reflexivity.
Qed.

(** ** Timers *)

Lemma stopSequence_spec (w : World) : stopSequence w = Ok tt (stopped w).
Proof.
  unfold stopSequence, setPlaying, setCurrentStep, clearTimeout. step.
  simpl stepTimerRef.
  destruct (stepTimerRef w) as [id|] eqn:E; unfold when_some; step;
    rewrite stopLastNote_spec; unfold stopped, torn, torn_nodes; simpl;
    rewrite E; reflexivity.
Qed.

Lemma filter_own_id (l : list Timer) (id : nat) :
  (forall t : Timer, In t l -> id = timerId t) ->
  List.filter (fun t => negb (Nat.eqb (timerId t) id)) l = [].
Proof.
  intros H. induction l as [|t l IH]; [reflexivity|].
  simpl. rewrite <- (H t (or_introl eq_refl)), Nat.eqb_refl. simpl.
  apply IH. intros t' Ht'. apply H. right. exact Ht'.
Qed.

Lemma stopped_timers (w : World) : timers_ok w -> timers (stopped w) = [].
Proof.
  intros [H1 _]. simpl. destruct (stepTimerRef w) as [id|] eqn:E.
  - apply filter_own_id. intros t Ht. apply H1 in Ht. congruence.
  - destruct (timers w) as [|t l]; [reflexivity|].
    specialize (H1 t (or_introl eq_refl)). discriminate.
Qed.

Lemma timers_ok_nextStep (e : Render.t) (i : index) (w : World) :
  ready w -> timers w = [] -> playingRef w = true ->
  timers_ok (world_of (nextStep e i w)).
Proof.
  intros Hr Ht Hp.
  destruct (nextStep_fields e i w Hr)
    as (w' & -> & _ & _ & Hp' & _ & _ & Hs' & Ht').
  simpl. rewrite Ht in Ht'. split.
  - intros t. rewrite Ht', Hs'. intros [<-|[]]. reflexivity.
  - rewrite Hp', Hp. discriminate.
Qed.

Lemma timers_ok_frame (w w' : World) :
  same_timers w w' -> timers_ok w -> timers_ok w'.
Proof. unfold timers_ok. intros (-> & -> & ->). auto. Qed.

Lemma same_timers_refl (w : World) : same_timers w w.
Proof. repeat split. Qed.

Lemma same_timers_trans (a b c : World) :
  same_timers a b -> same_timers b c -> same_timers a c.
Proof.
  intros (H1 & H2 & H3) (H4 & H5 & H6).
  repeat split; congruence.
Qed.

Ltac timers_auto :=
  keeps_auto same_timers_refl same_timers_trans; repeat split.

Lemma timers_ok_dispatch (ev : Event) (w : World) :
  Inv w -> timers_ok w -> timers_ok (world_of (dispatch ev w)).
Proof.
  intros [Hr _] Hok.
  assert (Hframe : forall c : M unit,
            keeps same_timers c -> timers_ok (world_of (c w)))
    by (intros c Hc; exact (timers_ok_frame _ _ (Hc w) Hok)).
  destruct ev; unfold dispatch.
  - (* Play *)
    rewrite bind_gets. unfold playSequence. rewrite bind_gets.
    destruct (playingRef w) eqn:Hp; [exact Hok|].
    unfold setPlaying, setCurrentStep. step.
    simpl audioCtxRef. rewrite (proj1 Hr). step.
    apply timers_ok_nextStep; [exact Hr | apply Hok, Hp | reflexivity].
  - (* Stop *)
    rewrite stopSequence_spec. simpl world_of. split.
    + rewrite (stopped_timers w Hok). intros t [].
    + intros _. apply stopped_timers, Hok.
  - apply Hframe.
    unfold rerender, setWaveform, waveformEffect, set_type, update_node.
    timers_auto.
  - apply Hframe. unfold setBpm. timers_auto.
  - apply Hframe.
    unfold rerender, setVolume, volumeEffect, set_value, update_node.
    timers_auto.
  - apply Hframe.
    unfold rerender, setFilter, filterEffect, set_value, update_node.
    timers_auto.
  - apply Hframe.
    unfold rerender, setReverb, reverbEffect, set_value, update_node.
    timers_auto.
  - apply Hframe.
    unfold handleAdsrChange, setAdsr, armEnvelope, cancelScheduledValues,
      setValueAtTime, linearRampToValueAtTime, schedule, update_node.
    timers_auto.
  - apply Hframe. unfold handleStepChange, setSteps. timers_auto.
  - (* TimerFires *)
    rewrite bind_gets.
    destruct (find_timer id (timers w)) as [t|] eqn:Hf; [|exact Hok].
    unfold clearTimeout, timerCallback. step. cbn [playingRef set_timers].
    assert (Hempty : List.filter (fun t0 => negb (Nat.eqb (timerId t0) id))
                       (timers w) = []).
    { apply List.find_some in Hf as [Hin Hid]. apply Nat.eqb_eq in Hid.
      apply filter_own_id. intros t' Ht'.
      apply (proj1 Hok) in Hin. apply (proj1 Hok) in Ht'. congruence. }
    destruct (playingRef w) eqn:Hp.
    + apply timers_ok_nextStep; [exact Hr | exact Hempty | exact Hp].
    + simpl. split; simpl; rewrite Hempty; [intros ? []|reflexivity].
  - destruct (Qle_bool 0 dt); exact Hok.
Qed.

Lemma reachable_timers_ok (w : World) : reachable w -> timers_ok w.
Proof.
  induction 1 as [|ev w Hw IH].
  - split; [intros t []|reflexivity].
  - apply timers_ok_dispatch; [apply reachable_Inv, Hw|exact IH].
Qed.



(** X18. A tick on a rest slot of the sequence of its closure: the slot is
    undefined, empty, or holds a name that is neither a key of the pitch
    table nor one a plain object inherits.  The tick returns without
    throwing, publishes its index, allocates no node, leaves the voice refs
    cleared with what was the previous voice stopped and disconnected, and
    registers one timer whose callback, while playing, runs the tick of
    index [(z + 1) mod len].  The index lies inside the sequence, whose
    length is that of an array (below 2^32). *)
Theorem rest_tick_advances (e : Render.t) (z : Z) (w : World) :
  (0 <= z < Z.of_nat (length (Render.steps e)))%Z ->
  (Z.of_nat (length (Render.steps e)) < 2 ^ 32)%Z ->
  rest_slot e (Int z) ->
  (forall n : string,
     steps_get (Render.steps e) (Int z) = Some n ->
     ~ In n Object_prototype_names) ->
  exists w' : World,
    nextStep e (Int z) w = Ok tt w'
    /\ currentStep w' = Int z
    /\ length (nodes w') = length (nodes w)
    /\ lastOscRef w' = None /\ lastGainRef w' = None
    /\ lastFilterRef w' = None
    /\ (forall (o : nat) (n : AudioNode),
          lastOscRef w = Some o -> nodes w' !! o = Some n ->
          stopTime n = Some (currentTime w) /\ outputs n = [])
    /\ (forall (g : nat) (n : AudioNode),
          lastGainRef w = Some g -> nodes w' !! g = Some n -> outputs n = [])
    /\ (forall (f : nat) (n : AudioNode),
          lastFilterRef w = Some f -> nodes w' !! f = Some n -> outputs n = [])
    /\ stepTimerRef w' = Some (nextTimerId w)
    /\ timers w'
         = timers w ++ [mkTimer (nextTimerId w) (stepMs e) e (Int z)]
    /\ forall w2 : World,
         playingRef w2 = true ->
         timerCallback e (Int z) w2
           = nextStep e
               (Int ((z + 1) mod Z.of_nat (length (Render.steps e)))) w2.
Proof.
  intros [Hz Hzl] _ Hrest _.
  assert (Hne : Render.steps e <> []).
  { intros E. rewrite E in Hzl. cbn in Hzl. lia. }
  apply rest_slot_no_freq in Hrest.
  rewrite (nextStep_rest e (Int z) w Hrest).
  eexists. split; [reflexivity|].
  split; [reflexivity|]. split; [exact (length_torn_nodes (set_currentStep (Int z) w))|].
  split; [reflexivity|]. split; [reflexivity|]. split; [reflexivity|].
  assert (Hlook : forall id n,
            nodes (with_timer e (Int z) (torn (set_currentStep (Int z) w))) !! id
              = Some n ->
            exists n0, nodes w !! id = Some n0
              /\ n = (if decide (lastFilterRef w = Some id)
                      then with_outputs (fun _ => []) else fun x => x)
                     ((if decide (lastGainRef w = Some id)
                       then with_outputs (fun _ => []) else fun x => x)
                      ((if decide (lastOscRef w = Some id)
                        then with_outputs (fun _ => []) else fun x => x)
                       ((if decide (lastOscRef w = Some id)
                         then with_stopTime (Some (currentTime w))
                         else fun x => x) n0)))).
  { intros id n. simpl. unfold torn_nodes. simpl.
    rewrite !lookup_alter_ref.
    destruct (nodes w !! id) as [n0|];
      [|repeat case_decide; simpl; discriminate].
    intros H. exists n0. split; [reflexivity|].
    repeat case_decide; simpl in H; injection H as <-; reflexivity. }
  split; [|split; [|split]].
  - intros o n Ho Hn. apply Hlook in Hn as (n0 & _ & ->).
    repeat case_decide; try contradiction; split; reflexivity.
  - intros g n Hg Hn. apply Hlook in Hn as (n0 & _ & ->).
    repeat case_decide; try contradiction; reflexivity.
  - intros f n Hf Hn. apply Hlook in Hn as (n0 & _ & ->).
    repeat case_decide; try contradiction; reflexivity.
  - split; [reflexivity|]. split; [reflexivity|].
    intros w2 Hp. unfold timerCallback. rewrite bind_gets, Hp.
    unfold succ_rem. destruct (Render.steps e) as [|s l] eqn:E; [contradiction|].
    cbn [length Nat.eqb]. rewrite Z.rem_mod_nonneg by lia. reflexivity.
Qed.

Lemma rest_tick_advances_witness :
  let e := with_steps [Some "E3"; Some ""; Some "G3"; Some "A3"] initialState in
  (0 <= 1 < Z.of_nat (length (Render.steps e)))%Z /\ rest_slot e (Int 1)
  /\ exists w' : World,
       nextStep e (Int 1) (run [Play] init) = Ok tt w'
       /\ currentStep w' = Int 1
       /\ length (nodes w') = length (nodes (run [Play] init))
       /\ lastOscRef w' = None.
Proof.
  intros e.
  assert (H1 : (0 <= 1 < Z.of_nat (length (Render.steps e)))%Z)
    by (cbn; lia).
  assert (H2 : (Z.of_nat (length (Render.steps e)) < 2 ^ 32)%Z)
    by (cbn; lia).
  assert (H3 : rest_slot e (Int 1)) by (left; reflexivity).
  assert (H4 : forall n : string,
            steps_get (Render.steps e) (Int 1) = Some n ->
            ~ In n Object_prototype_names).
  { intros n Hn. cbn in Hn. injection Hn as <-.
    intros Hin. cbn in Hin. intuition discriminate. }
  split; [exact H1|]. split; [exact H3|].
  destruct (rest_tick_advances e 1 (run [Play] init) H1 H2 H3 H4)
    as (w' & E & Hc & Hl & Ho & _).
  exists w'. repeat split; assumption.
Defined.

(** C5, at a failing input.  Play, then set step 1 to the empty option
    while timer 1 is pending.  When timer 1 fires, it runs the tick of
    step 1, and step 1 of the committed sequence is empty, a rest slot; yet
    the tick allocates three nodes and leaves a live voice at the E3 that
    the slot held when play() ran, because the tick reads the sequence of
    the render in which play() was called. *)
Theorem tick_on_emptied_slot_builds_voice :
  let w1 := run [Play] init in
  let w2 := run [ChangeStep 1 ""] w1 in
  let w3 := run [TimerFires 1] w2 in
  (exists t : Timer,
     timers w2 = [t] /\ timerId t = 1
     /\ succ_rem (idx t) (length (Render.steps (env t))) = Int 1
     /\ steps_get (Render.steps (env t)) (Int 1) = Some "E3")
  /\ steps_get (Render.steps (state w2)) (Int 1) = Some ""
  /\ rest_slot (state w2) (Int 1)
  /\ dispatch (TimerFires 1) w2 = Ok tt w3
  /\ currentStep w3 = Int 1
  /\ steps_get (Render.steps (state w3)) (Int 1) = Some ""
  /\ length (nodes w3) = length (nodes w2) + 3
  /\ live_voices w3 = [7]
  /\ exists n : AudioNode,
       lastOscRef w3 = Some 7 /\ nodes w3 !! 7 = Some n
       /\ kind n = Oscillator /\ value (param n) = 164.81%Q
       /\ startTime n = Some (currentTime w2).
Proof.
  vm_compute. split.
  - eexists. repeat split; reflexivity.
  - repeat split; try reflexivity.
    + left. reflexivity.
    + eexists. repeat split; reflexivity.
Qed.

(** ** The layout of the store *)

Lemma same_refs_refl (w : World) : same_refs w w.
Proof. repeat split. Qed.

Lemma same_refs_trans (a b c : World) :
  same_refs a b -> same_refs b c -> same_refs a c.
Proof.
  intros (A1 & A2 & A3 & A4 & A5 & A6 & A7) (B1 & B2 & B3 & B4 & B5 & B6 & B7).
  repeat split; congruence.
Qed.

Lemma layout_frame (w w' : World) : same_refs w w' -> layout w -> layout w'.
Proof.
  unfold layout. intros (-> & -> & -> & -> & -> & -> & ->). auto.
Qed.

Ltac refs_auto :=
  keeps_auto same_refs_refl same_refs_trans;
  repeat split; simpl; rewrite ?length_alter; reflexivity.

Lemma layout_torn (w : World) : layout w -> layout (torn w).
Proof.
  intros (H1 & H2 & H3 & H4 & _). unfold layout. simpl.
  rewrite length_torn_nodes. auto 10.
Qed.

Lemma layout_nextStep (e : Render.t) (i : index) (w : World) :
  audioCtxRef w = true -> layout w -> layout (world_of (nextStep e i w)).
Proof.
  intros Hc Hl.
  assert (Ht : layout (torn (set_currentStep i w)))
    by (apply layout_torn; revert Hl; apply layout_frame; repeat split).
  destruct Hl as (Hd & Hw & Hv & Hlen & _).
  destruct (note_freq (steps_get (Render.steps e) i)) as [freq|] eqn:Hn.
  - rewrite (nextStep_voice e i w freq 1 3 Hn Hc Hd Hv).
    destruct Ht as (T1 & T2 & T3 & T4 & _).
    unfold layout. simpl in *. rewrite length_app, length_torn_nodes in *.
    simpl. repeat (split; [assumption || lia|]).
    right. exists (length (nodes w)). repeat split; lia.
  - rewrite (nextStep_rest e i w Hn). revert Ht.
    apply layout_frame; repeat split.
Qed.

Lemma layout_init : layout init.
Proof. vm_compute. repeat split; auto 10. Qed.

Lemma layout_dispatch (ev : Event) (w : World) :
  audioCtxRef w = true -> layout w -> layout (world_of (dispatch ev w)).
Proof.
  intros Hc Hl.
  assert (Hframe : forall c : M unit,
            keeps same_refs c -> layout (world_of (c w)))
    by (intros c Hk; exact (layout_frame _ _ (Hk w) Hl)).
  destruct ev; unfold dispatch.
  - rewrite bind_gets. unfold playSequence. rewrite bind_gets.
    destruct (playingRef w); [exact Hl|].
    unfold setPlaying, setCurrentStep. step.
    simpl audioCtxRef. rewrite Hc. step.
    apply layout_nextStep; [exact Hc|].
    revert Hl. apply layout_frame; repeat split.
  - rewrite stopSequence_spec. simpl world_of.
    assert (Ht := layout_torn w Hl). revert Ht.
    apply layout_frame; repeat split.
  - apply Hframe.
    unfold rerender, setWaveform, waveformEffect, set_type, update_node.
    refs_auto.
  - apply Hframe. unfold setBpm. refs_auto.
  - apply Hframe.
    unfold rerender, setVolume, volumeEffect, set_value, update_node.
    refs_auto.
  - apply Hframe.
    unfold rerender, setFilter, filterEffect, set_value, update_node.
    refs_auto.
  - apply Hframe.
    unfold rerender, setReverb, reverbEffect, set_value, update_node.
    refs_auto.
  - apply Hframe.
    unfold handleAdsrChange, setAdsr, armEnvelope, cancelScheduledValues,
      setValueAtTime, linearRampToValueAtTime, schedule, update_node.
    refs_auto.
  - apply Hframe. unfold handleStepChange, setSteps. refs_auto.
  - rewrite bind_gets.
    destruct (find_timer id (timers w)) as [t|]; [|exact Hl].
    unfold clearTimeout, timerCallback. step. cbn [playingRef set_timers].
    destruct (playingRef w).
    + apply layout_nextStep; [exact Hc|].
      revert Hl. apply layout_frame; repeat split.
    + revert Hl. apply layout_frame; repeat split.
  - destruct (Qle_bool 0 dt); [|exact Hl].
    revert Hl. apply layout_frame; repeat split.
Qed.

Lemma reachable_layout (w : World) : reachable w -> layout w.
Proof.
  induction 1 as [|ev w Hw IH]; [apply layout_init|].
  apply layout_dispatch; [apply (reachable_Inv w Hw)|exact IH].
Qed.

Lemma handleAdsrChange_live (e : Render.t) (field : Field) (val : Q)
    (w : World) (g : nat) :
  lastGainRef w = Some g -> audioCtxRef w = true ->
  handleAdsrChange e field val w
    = Ok tt (set_nodes (alter (with_param (armed e (currentTime w))) g)
               (set_state
                  (with_adsr (adsr_with (Render.adsr e) field (clamp val 0 2)))
                  w)).
Proof.
  intros Hg Hc. unfold handleAdsrChange, setAdsr. step.
  cbn [lastGainRef audioCtxRef set_state]. rewrite Hg, Hc. step.
  apply armEnvelope_spec.
Qed.

Lemma handleAdsrChange_idle (e : Render.t) (field : Field) (val : Q)
    (w : World) :
  lastGainRef w = None \/ audioCtxRef w = false ->
  handleAdsrChange e field val w
    = Ok tt (set_state
               (with_adsr (adsr_with (Render.adsr e) field (clamp val 0 2)))
               w).
Proof.
  intros H. unfold handleAdsrChange, setAdsr. step.
  cbn [lastGainRef audioCtxRef set_state].
  destruct H as [-> | ->]; [reflexivity|].
  destruct (lastGainRef w); reflexivity.
Qed.

(** X19. An ADSR edit made while a voice is live re-arms that voice's gain
    at the current audio-clock instant: what was scheduled at or after it is
    dropped and the four points are appended, computed from the volume and
    the envelope of the handler's render, that is, from the values before
    the edit.  The audio store after the edit does not depend on the edited
    value, which only goes to the state; the handler of the next render
    closes over that state, so the next edit arms with the edited value. *)
Theorem adsr_edit_rearms_with_previous (e : Render.t) (field : Field)
    (val : Q) (w : World) (g : nat) (n : AudioNode) :
  lastGainRef w = Some g ->
  audioCtxRef w = true ->
  nodes w !! g = Some n ->
  let now := currentTime w in
  let v := Render.volume e in
  let old := Render.adsr e in
  let new := adsr_with old field (clamp val 0 2) in
  exists (w' : World) (n' : AudioNode),
    handleAdsrChange e field val w = Ok tt w'
    /\ nodes w' !! g = Some n'
    /\ events (param n') =
         (List.filter (fun ev => negb (Qle_bool now (event_time ev)))
            (events (param n))
          ++ [ SetValueAtTime 0 now;
               LinearRampToValueAtTime v (now + ADSR.a old);
               LinearRampToValueAtTime (v * ADSR.s old)
                 (now + ADSR.a old + ADSR.d old);
               LinearRampToValueAtTime 0
                 (now + ADSR.a old + ADSR.d old + ADSR.r old) ])%Q
    /\ Render.adsr (state w') = new
    /\ (forall val2 : Q,
          nodes (world_of (handleAdsrChange e field val2 w)) = nodes w')
    /\ (e = state w ->
        forall (field2 : Field) (val2 : Q),
        exists (w2 : World) (n2 : AudioNode),
          handleAdsrChange (state w') field2 val2 w' = Ok tt w2
          /\ nodes w2 !! g = Some n2
          /\ events (param n2) =
               (List.filter (fun ev => negb (Qle_bool now (event_time ev)))
                  (events (param n'))
                ++ [ SetValueAtTime 0 now;
                     LinearRampToValueAtTime v (now + ADSR.a new);
                     LinearRampToValueAtTime (v * ADSR.s new)
                       (now + ADSR.a new + ADSR.d new);
                     LinearRampToValueAtTime 0
                       (now + ADSR.a new + ADSR.d new + ADSR.r new) ])%Q).
Proof.
  intros Hg Hc Hn now v old new.
  rewrite (handleAdsrChange_live e field val w g Hg Hc).
  eexists. eexists. split; [reflexivity|].
  split; [simpl; rewrite list_lookup_alter_eq, Hn; reflexivity|].
  split; [reflexivity|]. split; [reflexivity|]. split.
  - intros val2. rewrite (handleAdsrChange_live e field val2 w g Hg Hc).
    reflexivity.
  - intros -> field2 val2.
    rewrite (handleAdsrChange_live _ field2 val2 _ g); [|exact Hg|exact Hc].
    eexists. eexists. split; [reflexivity|]. split.
    + simpl. rewrite !list_lookup_alter_eq, Hn. reflexivity.
    + reflexivity.
Qed.

Lemma adsr_edit_rearms_with_previous_witness :
  let w := run [Play; ClockAdvances 0.05] init in
  lastGainRef w = Some 5 /\ audioCtxRef w = true
  /\ exists (w' : World) (n' : AudioNode),
       handleAdsrChange (state w) fr 2 w = Ok tt w'
       /\ nodes w' !! 5 = Some n'
       /\ events (param n') =
            [ SetValueAtTime 0 0; LinearRampToValueAtTime 0.5 (0 + 0.01);
              SetValueAtTime 0 (0 + 0.05);
              LinearRampToValueAtTime 0.5 (0 + 0.05 + 0.01);
              LinearRampToValueAtTime (0.5 * 0.7) (0 + 0.05 + 0.01 + 0.1);
              LinearRampToValueAtTime 0 (0 + 0.05 + 0.01 + 0.1 + 0.2) ]%Q
       /\ ADSR.r (Render.adsr (state w')) = 2%Q.
Proof.
  intros w.
  assert (Hg : lastGainRef w = Some 5) by reflexivity.
  assert (Hc : audioCtxRef w = true) by reflexivity.
  split; [exact Hg|]. split; [exact Hc|].
  destruct (nodes w !! 5) as [n|] eqn:Hn; [|vm_compute in Hn; discriminate].
  destruct (adsr_edit_rearms_with_previous (state w) fr 2 w 5 n Hg Hc Hn)
    as (w' & n' & E & Hn' & Hev & Hst & _).
  exists w', n'. split; [exact E|]. split; [exact Hn'|]. split.
  - rewrite Hev. vm_compute in Hn. injection Hn as <-. reflexivity.
  - rewrite Hst. reflexivity.
Defined.

(** C6, at a failing input.  Play, and 50 ms later, while the first voice
    is live, set the release to 2 s; the edit is committed.  When timer 1
    fires at 125 ms, the next trigger still stops its oscillator after
    0.01 + 0.1 + 0.2 s and arms its gain with the envelope of the render in
    which play() was called: the edited value does not reach the next
    trigger.  It reaches a trigger only once playback is restarted. *)
Theorem adsr_edit_misses_next_trigger :
  let w1 := run [Play; ClockAdvances 0.05] init in
  let w2 := run [ChangeAdsr fr 2; ClockAdvances 0.075] w1 in
  let w3 := run [TimerFires 1] w2 in
  let w4 := run [Stop; Play] w3 in
  live_voices w1 = [4] /\ lastGainRef w1 = Some 5
  /\ ADSR.r (Render.adsr (state w1)) = 0.2%Q
  /\ ADSR.r (Render.adsr (state w2)) = 2%Q
  /\ ADSR.r (Render.adsr (state w3)) = 2%Q
  /\ currentTime w3 == 0.125
  /\ (exists (o g : AudioNode) (st : Q),
        lastOscRef w3 = Some 7 /\ nodes w3 !! 7 = Some o
        /\ lastGainRef w3 = Some 8 /\ nodes w3 !! 8 = Some g
        /\ stopTime o = Some st
        /\ st == 0.125 + (0.01 + 0.1 + 0.2)
        /\ ~ st == 0.125 + (0.01 + 0.1 + 2)
        /\ Forall2 event_eq (events (param g))
             (four_points initialState 0.125))
  /\ (exists (o : AudioNode) (st : Q),
        lastOscRef w4 = Some 10 /\ nodes w4 !! 10 = Some o
        /\ stopTime o = Some st /\ st == 0.125 + (0.01 + 0.1 + 2)).
Proof.
  vm_compute. repeat split; try reflexivity.
  - eexists. eexists. eexists. repeat split; try reflexivity.
    + discriminate.
    + repeat constructor.
  - eexists. eexists. repeat split; reflexivity.
Qed.

(** C7. In a reachable world, applying the mix writes [1 - reverb] to the
    value of the dry gain and [reverb] to the value of the wet gain, which
    sum to 1.  Nothing else changes: the two nodes keep their kind,
    connections and automation, every other node of the store (the nodes of
    the live voice among them) is as it was, and so is every field of the
    world outside the store. *)
Theorem mix_update_frame (e : Render.t) (w : World) :
  reachable w ->
  exists (w' : World) (dry wet : nat) (nd nw nd' nw' : AudioNode),
    reverbEffect e w = Ok tt w'
    /\ dryGainRef w = Some dry /\ wetGainRef w = Some wet /\ dry <> wet
    /\ nodes w !! dry = Some nd /\ nodes w !! wet = Some nw
    /\ nodes w' !! dry = Some nd' /\ nodes w' !! wet = Some nw'
    /\ value (param nd') = (1 - Render.reverb e)%Q
    /\ value (param nw') = Render.reverb e
    /\ value (param nd') + value (param nw') == 1
    /\ events (param nd') = events (param nd) /\ same_but_param nd nd'
    /\ events (param nw') = events (param nw) /\ same_but_param nw nw'
    /\ length (nodes w') = length (nodes w)
    /\ (forall id : nat,
          id <> dry -> id <> wet -> nodes w' !! id = nodes w !! id)
    /\ (forall id : nat,
          lastOscRef w = Some id \/ lastGainRef w = Some id
          \/ lastFilterRef w = Some id ->
          nodes w' !! id = nodes w !! id)
    /\ w' = set_nodes (fun _ => nodes w') w.
Proof.
  intros Hreach. destruct (reachable_layout w Hreach)
    as (Hd & Hw & Hv & Hlen & Hvoice).
  destruct (nodes w !! 1) as [nd|] eqn:End;
    [|apply lookup_ge_None in End; lia].
  destruct (nodes w !! 2) as [nw|] eqn:Enw;
    [|apply lookup_ge_None in Enw; lia].
  assert (E : reverbEffect e w
              = Ok tt (set_nodes
                         (fun l =>
                            alter (with_param
                                     (fun p => mkParam (Render.reverb e) (events p)))
                              2
                              (alter (with_param
                                        (fun p => mkParam (1 - Render.reverb e)
                                                    (events p)))
                                 1 l)) w)).
  { unfold reverbEffect, set_value, update_node. step. rewrite Hd.
    unfold when_some. step. cbn [wetGainRef set_nodes]. rewrite Hw.
    destruct w; reflexivity. }
  rewrite E. eexists. exists 1, 2, nd, nw. eexists. eexists.
  split; [reflexivity|]. split; [exact Hd|]. split; [exact Hw|].
  split; [lia|]. split; [exact End|]. split; [exact Enw|].
  split; [simpl; rewrite list_lookup_alter_ne by lia;
          rewrite list_lookup_alter_eq, End; reflexivity|].
  split; [simpl; rewrite list_lookup_alter_eq;
          rewrite list_lookup_alter_ne by lia; rewrite Enw; reflexivity|].
  split; [reflexivity|]. split; [reflexivity|].
  split; [simpl; ring|].
  split; [reflexivity|]. split; [repeat split|].
  split; [reflexivity|]. split; [repeat split|].
  split; [simpl; rewrite !length_alter; reflexivity|].
  assert (Hother : forall id : nat, id <> 1 -> id <> 2 ->
            alter (with_param (fun p => mkParam (Render.reverb e) (events p))) 2
              (alter (with_param
                        (fun p => mkParam (1 - Render.reverb e) (events p)))
                 1 (nodes w)) !! id = nodes w !! id).
  { intros id H1 H2. rewrite !list_lookup_alter_ne by congruence. reflexivity. }
  split; [exact Hother|]. split.
  - intros id Hid. apply Hother;
      destruct Hvoice as [(Ho & Hg & Hf)|(n & Hn & _ & Ho & Hg & Hf)];
      destruct Hid as [Hid|[Hid|Hid]]; congruence || (intros ->; 
      rewrite ?Ho, ?Hg, ?Hf in Hid; injection Hid as Hid; lia).
  - destruct w; reflexivity.
Qed.

Lemma mix_update_frame_witness :
  reachable (run [Play] init)
  /\ exists (w' : World) (nd' nw' : AudioNode),
       reverbEffect (with_reverb 0.3 initialState) (run [Play] init) = Ok tt w'
       /\ nodes w' !! 1 = Some nd' /\ nodes w' !! 2 = Some nw'
       /\ value (param nd') = (1 - 0.3)%Q /\ value (param nw') = 0.3%Q
       /\ nodes w' !! 4 = nodes (run [Play] init) !! 4.
Proof.
  split; [apply reachable_run, reachable_init|].
  destruct (mix_update_frame (with_reverb 0.3 initialState) (run [Play] init)
              (reachable_run [Play] init reachable_init))
    as (w' & dry & wet & nd & nw & nd' & nw' & E & Hd & Hw & _ & _ & _
        & Hnd & Hnw & Hvd & Hvw & _ & _ & _ & _ & _ & _ & _ & Hvoice & _).
  injection Hd as <-. injection Hw as <-.
  exists w', nd', nw'. repeat (split; [assumption|]).
  apply Hvoice. left. reflexivity.
Defined.

Lemma clamp_spec (val lo hi : Q) :
  (lo <= hi)%Q ->
  (lo <= clamp val lo hi <= hi)%Q
  /\ ((lo <= val <= hi)%Q -> clamp val lo hi == val)
  /\ ((val < lo)%Q -> clamp val lo hi == lo)
  /\ ((hi < val)%Q -> clamp val lo hi == hi).
Proof.
  intros Hle. unfold clamp.
  destruct (Q.min_spec hi val) as [[H1 E1]|[H1 E1]];
    destruct (Q.max_spec lo (Qmin hi val)) as [[H2 E2]|[H2 E2]];
    revert H2 E1 E2; generalize (Qmin hi val) as m;
    intros m; generalize (Qmax lo m) as x; intros x H2 E1 E2;
    repeat split; intros; lra.
Qed.


(** The upper bound of sustain is the control's: called with 1.5, which
    the Sustain control (max 1) does not deliver, the handler stores 1.5. *)
Lemma sustain_edit_exceeds_unit :
  let w' := world_of (handleAdsrChange initialState fs 1.5 init) in
  ADSR.s (Render.adsr (state w')) = 1.5%Q
  /\ ~ ADSR.s (Render.adsr (state w')) == clamp 1.5 0 1
  /\ ~ (ADSR.s (Render.adsr (state w')) <= 1)%Q.
Proof.
  split; [vm_compute; reflexivity|]. split.
  - intros H. vm_compute in H. discriminate.
  - intros H. vm_compute in H. apply H. reflexivity.
Qed.





(** What a trigger builds, in the environment [e] of the closure that runs
    the tick: an oscillator with the table's frequency and [e]'s waveform,
    started at the current instant and set to stop after [e]'s attack,
    decay and release; a low-pass filter at [e]'s cutoff; a gain whose
    value attribute is [e]'s volume and whose timeline opens with value 0
    at the current instant; wired oscillator to filter to gain, and gain to
    the dry gain and to the convolver. *)
Lemma trigger_builds_voice (e : Render.t) (i : index) (w : World)
    (freq : Q) (dry conv : nat) :
  audioCtxRef w = true -> dryGainRef w = Some dry ->
  convolverRef w = Some conv ->
  note_freq (steps_get (Render.steps e) i) = Some freq ->
  let n := length (nodes w) in
  let now := currentTime w in
  exists w' : World,
    nextStep e i w = Ok tt w'
    /\ audioCtxRef w' = true /\ currentTime w' = now
    /\ lastOscRef w' = Some n /\ lastGainRef w' = Some (n + 1)
    /\ lastFilterRef w' = Some (n + 2)
    /\ nodes w' !! n
       = Some (mkNode Oscillator (Render.waveform e) (mkParam freq [])
                 (Some now)
                 (Some (now + ADSR.a (Render.adsr e) + ADSR.d (Render.adsr e)
                          + ADSR.r (Render.adsr e))%Q)
                 [n + 2])
    /\ nodes w' !! (n + 2)
       = Some (mkNode BiquadFilter "lowpass" (mkParam (Render.filter e) [])
                 None None [n + 1])
    /\ nodes w' !! (n + 1)
       = Some (mkNode Gain "" (mkParam (Render.volume e) (four_points e now))
                 None None [dry; conv]).
Proof.
  intros Hc Hd Hv Hn n now.
  rewrite (nextStep_voice e i w freq dry conv Hn Hc Hd Hv).
  eexists. split; [reflexivity|]. split; [exact Hc|]. cbn.
  rewrite !length_torn_nodes. cbn.
  repeat (split; [reflexivity|]).
  assert (Hl : forall k, 
            (torn_nodes (set_currentStep i w)
               ++ voice_nodes e freq (currentTime w) (length (nodes w)) dry conv)
              !! (length (nodes w) + k)
            = voice_nodes e freq (currentTime w) (length (nodes w)) dry conv !! k).
  { intros k. rewrite lookup_app_r by (rewrite length_torn_nodes; cbn; lia).
    rewrite length_torn_nodes. cbn. f_equal. lia. }
  assert (H0 := Hl 0). rewrite Nat.add_0_r in H0.
  split; [exact H0|]. split; apply Hl.
Qed.

(** C10. In a reachable world with a live voice, an ADSR edit changes one
    node of the store, the voice's gain, and there only the automation
    timeline: its kind, connections and value are kept, and the oscillator
    is untouched, so its stop time is still the one set at the trigger.
    From a trigger in the environment [e0] on, that stop time is the
    trigger instant plus the attack, decay and release of [e0], whatever
    the edits that follow and whenever the re-armed envelope ends. *)
Theorem adsr_edit_keeps_stop_time (e : Render.t) (field : Field) (val : Q)
    (w : World) (o : nat) :
  reachable w ->
  lastOscRef w = Some o ->
  exists (w' : World) (g : nat) (n n' : AudioNode),
    handleAdsrChange e field val w = Ok tt w'
    /\ lastGainRef w = Some g /\ g <> o
    /\ lastOscRef w' = Some o
    /\ nodes w' !! o = nodes w !! o
    /\ (forall id : nat, id <> g -> nodes w' !! id = nodes w !! id)
    /\ nodes w !! g = Some n /\ nodes w' !! g = Some n'
    /\ same_but_param n n' /\ value (param n') = value (param n)
    /\ (forall (e0 : Render.t) (i : index) (w0 : World) (freq dt : Q),
          ready w0 ->
          note_freq (steps_get (Render.steps e0) i) = Some freq ->
          let w1 := world_of (nextStep e0 i w0) in
          let w2 := set_currentTime (currentTime w1 + dt) w1 in
          let w3 := world_of (handleAdsrChange e field val w2) in
          exists (o3 g3 : nat) (n3 m3 : AudioNode),
            lastOscRef w3 = Some o3 /\ nodes w3 !! o3 = Some n3
            /\ stopTime n3
               = Some (currentTime w0 + ADSR.a (Render.adsr e0)
                         + ADSR.d (Render.adsr e0)
                         + ADSR.r (Render.adsr e0))%Q
            /\ lastGainRef w3 = Some g3 /\ nodes w3 !! g3 = Some m3
            /\ last (events (param m3))
               = Some (LinearRampToValueAtTime 0
                         (currentTime w0 + dt + ADSR.a (Render.adsr e)
                            + ADSR.d (Render.adsr e)
                            + ADSR.r (Render.adsr e)))%Q).
Proof.
  intros Hreach Ho.
  destruct (reachable_layout w Hreach) as (_ & _ & _ & _ & Hvoice).
  destruct Hvoice as [(Ho' & _)|(k & Hk & Hlen & Ho' & Hg & Hf)];
    [congruence|].
  assert (o = k) by congruence. subst k.
  assert (Hc : audioCtxRef w = true) by apply (reachable_Inv w Hreach).
  destruct (nodes w !! (o + 1)) as [n|] eqn:Hn;
    [|apply lookup_ge_None in Hn; lia].
  rewrite (handleAdsrChange_live e field val w (o + 1) Hg Hc).
  eexists. exists (o + 1), n. eexists.
  split; [reflexivity|]. split; [exact Hg|]. split; [lia|].
  split; [exact Ho|].
  split; [simpl; apply list_lookup_alter_ne; lia|].
  split; [intros id Hid; simpl; apply list_lookup_alter_ne; congruence|].
  split; [exact Hn|].
  split; [simpl; rewrite list_lookup_alter_eq, Hn; reflexivity|].
  split; [repeat split|]. split; [reflexivity|].
  intros e0 i w0 freq dt (Hc0 & [dry Hd0] & [conv Hv0]) Hfreq w1 w2 w3.
  subst w3 w2 w1.
  destruct (trigger_builds_voice e0 i w0 freq dry conv Hc0 Hd0 Hv0 Hfreq)
    as (w1 & -> & Hc1 & Ht1 & Ho1 & Hg1 & _ & Hosc & _ & Hgain).
  cbn [world_of].
  rewrite (handleAdsrChange_live e field val _ (length (nodes w0) + 1));
    [|exact Hg1|exact Hc1].
  cbn [world_of].
  exists (length (nodes w0)), (length (nodes w0) + 1).
  eexists. eexists.
  split; [exact Ho1|].
  split; [cbn; rewrite list_lookup_alter_ne by lia; exact Hosc|].
  split; [reflexivity|]. split; [exact Hg1|].
  split; [cbn; rewrite list_lookup_alter_eq, Hgain; reflexivity|].
  cbn [param events with_param armed set_currentTime currentTime].
  rewrite last_app, Ht1. reflexivity.
Qed.

Lemma adsr_edit_keeps_stop_time_witness :
  let w := run [Play; ClockAdvances 0.2] init in
  reachable w /\ lastOscRef w = Some 4
  /\ exists (w' : World) (n : AudioNode),
       handleAdsrChange (state w) fr 2 w = Ok tt w'
       /\ nodes w' !! 4 = Some n
       /\ stopTime n = Some (0 + 0.01 + 0.1 + 0.2)%Q.
Proof.
  intros w.
  assert (Hr : reachable w) by apply reachable_run, reachable_init.
  assert (Ho : lastOscRef w = Some 4) by reflexivity.
  split; [exact Hr|]. split; [exact Ho|].
  destruct (adsr_edit_keeps_stop_time (state w) fr 2 w 4 Hr Ho)
    as (w' & g & n & n' & E & _ & _ & _ & Hosc & _).
  exists w'. eexists. split; [exact E|].
  rewrite Hosc. split; vm_compute; reflexivity.
Defined.

(** C8, at a failing input.  Play with a sine and the cutoff at 20000 Hz;
    while timer 1 is pending select the sawtooth and set the cutoff to
    1000 Hz.  The two effects update the live voice at once.  When timer 1
    fires, the tick builds the next voice with the sine and the 20000 Hz of
    the render in which play() was called, not with the current timbre. *)
Theorem tick_builds_voice_with_timbre_of_play_render :
  let w1 := run [Play; ChangeWaveform "sawtooth"; ChangeFilter 1000] init in
  let w2 := run [TimerFires 1] w1 in
  Render.waveform (state w2) = "sawtooth"
  /\ Render.filter (state w2) = 1000%Q
  /\ (type <$> nodes w1 !! 4) = Some "sawtooth"
  /\ (value <$> (param <$> nodes w1 !! 6)) = Some 1000%Q
  /\ lastOscRef w2 = Some 7 /\ lastFilterRef w2 = Some 9
  /\ (type <$> nodes w2 !! 7) = Some "sine"
  /\ (value <$> (param <$> nodes w2 !! 9)) = Some 20000%Q
  /\ live_voices w2 = [7].
Proof. vm_compute. repeat split; reflexivity. Qed.

(** ** The event loop as a step relation *)

Lemma set_nodes_id (w : World) : set_nodes (fun l => l) w = w.
Proof. destruct w; reflexivity. Qed.

Lemma set_state_nodes_ref (f : Render.t -> Render.t)
    (g : AudioNode -> AudioNode) (r : option nat) (w : World) :
  when_some r (fun id => update_node id g) (set_state f w)
    = Ok tt (edited f (alter_ref g r) w).
Proof.
  destruct r as [id|]; [reflexivity|].
  unfold edited. simpl alter_ref.
  change (fun l : list AudioNode => l) with (fun l : list AudioNode => l).
  rewrite set_nodes_id. reflexivity.
Qed.

Lemma nextStep_ticked (e : Render.t) (i : index) (w : World) :
  audioCtxRef w = true -> dryGainRef w = Some 1 -> convolverRef w = Some 3 ->
  nextStep e i w = Ok tt (ticked e i w).
Proof.
  intros Hc Hd Hv. unfold ticked.
  destruct (note_freq (steps_get (Render.steps e) i)) as [freq|] eqn:Hn.
  - apply nextStep_voice; assumption.
  - apply nextStep_rest; assumption.
Qed.

Lemma ticked_frame (e : Render.t) (i : index) (w p : World) :
  playing p = playing w -> playingRef p = playingRef w -> state p = state w ->
  audioCtxRef p = audioCtxRef w -> dryGainRef p = dryGainRef w ->
  wetGainRef p = wetGainRef w -> convolverRef p = convolverRef w ->
  lastGainRef p = lastGainRef w -> lastOscRef p = lastOscRef w ->
  lastFilterRef p = lastFilterRef w -> currentTime p = currentTime w ->
  nodes p = nodes w -> timers p = timers w -> nextTimerId p = nextTimerId w ->
  ticked e i p = ticked e i w.
Proof.
  intros. unfold ticked, with_timer, with_voice, torn, torn_nodes. cbn.
  destruct (note_freq _); cbn; congruence.
Qed.

Lemma dispatch_step (ev : Event) (w : World) :
  reachable w -> step w ev (world_of (dispatch ev w)).
Proof.
  intros Hreach.
  destruct (reachable_Inv w Hreach) as [(Hc & _ & _) _].
  destruct (reachable_layout w Hreach) as (Hd & Hw & Hv & _ & _).
  assert (Hok := reachable_timers_ok w Hreach).
  destruct ev; unfold dispatch.
  - rewrite bind_gets. unfold playSequence. rewrite bind_gets.
    destruct (playingRef w) eqn:Hp; [apply step_play_playing, Hp|].
    unfold setPlaying, setCurrentStep. step.
    simpl audioCtxRef. rewrite Hc. step.
    rewrite nextStep_ticked by assumption. cbn [world_of].
    rewrite (ticked_frame _ _ (set_playingRef true (set_playing true w)))
      by reflexivity.
    apply step_play, Hp.
  - rewrite stopSequence_spec. apply step_stop.
  - pose proof (step_waveform w v) as S. unfold changed_string in S.
    unfold rerender, setWaveform, waveformEffect, set_type. step.
    cbn [state set_state Render.waveform with_waveform].
    destruct (negb _).
    + step. cbn [lastOscRef set_state]. rewrite set_state_nodes_ref. exact S.
    + unfold ret. cbn [world_of].
      rewrite <- (set_nodes_id (set_state _ w)). exact S.
  - pose proof (step_bpm w v) as S. unfold setBpm, modify. cbn [world_of].
    rewrite <- (set_nodes_id (set_state _ w)). exact S.
  - pose proof (step_volume w v) as S. unfold changed_number in S.
    unfold rerender, setVolume, volumeEffect, set_value. step.
    cbn [state set_state Render.volume with_volume].
    destruct (negb _).
    + step. cbn [lastGainRef set_state]. rewrite set_state_nodes_ref. exact S.
    + unfold ret. cbn [world_of].
      rewrite <- (set_nodes_id (set_state _ w)). exact S.
  - pose proof (step_filter w v) as S. unfold changed_number in S.
    unfold rerender, setFilter, filterEffect, set_value. step.
    cbn [state set_state Render.filter with_filter].
    destruct (negb _).
    + step. cbn [lastFilterRef set_state]. rewrite set_state_nodes_ref.
      exact S.
    + unfold ret. cbn [world_of].
      rewrite <- (set_nodes_id (set_state _ w)). exact S.
  - pose proof (step_reverb w v) as S. unfold changed_number in S.
    unfold rerender, setReverb, reverbEffect, set_value, update_node. step.
    cbn [state set_state Render.reverb with_reverb].
    destruct (negb _).
    + step. cbn [dryGainRef set_state]. rewrite Hd.
      unfold when_some. step. cbn [wetGainRef set_state set_nodes].
      rewrite Hw. unfold modify. cbn [world_of]. exact S.
    + unfold ret. cbn [world_of].
      rewrite <- (set_nodes_id (set_state _ w)). exact S.
  - pose proof (step_adsr w field val) as S. step.
    destruct (lastGainRef w) as [g|] eqn:Hg.
    + rewrite (handleAdsrChange_live _ field val w g Hg Hc). exact S.
    + rewrite (handleAdsrChange_idle _ field val w (or_introl Hg)).
      cbn [world_of]. rewrite <- (set_nodes_id (set_state _ w)). exact S.
  - pose proof (step_steps w i val) as S. step.
    unfold handleStepChange, setSteps, modify. cbn [world_of].
    rewrite <- (set_nodes_id (set_state _ w)). exact S.
  - rewrite bind_gets.
    destruct (find_timer id (timers w)) as [t|] eqn:Hf;
      [|apply step_timer_gone, Hf].
    unfold clearTimeout, timerCallback. step. cbn [playingRef set_timers].
    assert (Hempty : List.filter (fun t0 => negb (Nat.eqb (timerId t0) id))
                       (timers w) = []).
    { pose proof Hf as Hf'.
      apply List.find_some in Hf' as [Hin Hid]. apply Nat.eqb_eq in Hid.
      apply filter_own_id. intros t' Ht'.
      apply (proj1 Hok) in Hin. apply (proj1 Hok) in Ht'. congruence. }
    destruct (playingRef w) eqn:Hp.
    + rewrite nextStep_ticked by assumption. cbn [world_of].
      rewrite (ticked_frame _ _ (set_timers (fun _ => []) w));
        [|reflexivity..|cbn; exact Hempty|reflexivity].
      apply step_timer; assumption.
    + apply List.find_some in Hf as [Hin _].
      rewrite (proj2 Hok Hp) in Hin. destruct Hin.
  - destruct (Qle_bool 0 dt) eqn:Hdt.
    + apply step_clock, Qle_bool_iff, Hdt.
    + apply step_clock_back. rewrite <- Qle_bool_iff, Hdt. discriminate.
Qed.

(** ** More of the program *)

(** X1. [clamp] with ordered bounds returns a value between them, returns
    its input when that lies between them, is idempotent and is monotone;
    with the bounds the wrong way round it returns the lower argument. *)
Theorem clamp_range_idempotent_monotone (lo hi : Q) :
  (lo <= hi)%Q ->
  (forall v : Q, (lo <= clamp v lo hi <= hi)%Q)
  /\ (forall v : Q, (lo <= v <= hi)%Q -> clamp v lo hi == v)
  /\ (forall v : Q, clamp (clamp v lo hi) lo hi == clamp v lo hi)
  /\ (forall v v' : Q, (v <= v')%Q -> (clamp v lo hi <= clamp v' lo hi)%Q)
  /\ (forall v lo' hi' : Q, (hi' < lo')%Q -> clamp v lo' hi' == lo').
Proof.
  intros Hle.
  split; [intros v; apply (clamp_spec v lo hi Hle)|].
  split; [intros v; apply (clamp_spec v lo hi Hle)|].
  split.
  - intros v. apply (clamp_spec (clamp v lo hi) lo hi Hle).
    apply (clamp_spec v lo hi Hle).
  - split.
    + intros v v' Hv. unfold clamp.
      apply Q.max_le_compat_l, Q.min_le_compat_l, Hv.
    + intros v lo' hi' H. unfold clamp. apply Q.max_l.
      apply Qle_trans with (y := hi'); [apply Q.le_min_l|].
      apply Qlt_le_weak, H.
Qed.

Lemma clamp_range_idempotent_monotone_witness :
  (40 <= 300)%Q
  /\ (40 <= clamp 1000 40 300 <= 300)%Q
  /\ clamp (clamp 7 40 300) 40 300 == clamp 7 40 300.
Proof.
  assert (H : (40 <= 300)%Q) by discriminate.
  split; [exact H|].
  destruct (clamp_range_idempotent_monotone 40 300 H) as (H1 & _ & H3 & _).
  split; [apply H1|apply H3].
Defined.

Lemma Qinv_total_pos (a d r : Q) :
  (0 <= a)%Q -> (0 <= d)%Q -> (0 <= r)%Q ->
  exists u : Q, (0 < u)%Q /\ (a + d + r + 0.5) * u == 1
                /\ forall x : Q, x / (a + d + r + 0.5) == x * u.
Proof.
  intros Ha Hd Hr. exists (/ (a + d + r + 0.5))%Q.
  assert (HT : (0 < a + d + r + 0.5)%Q) by lra.
  split; [apply Qinv_lt_0_compat, HT|].
  split; [apply Qmult_inv_r; lra|].
  intros x. reflexivity.
Qed.

(** X2. The envelope picture, for non-negative attack, decay and release:
    the divisor is positive, the polyline runs from the bottom left corner
    up to the top edge and ends in the bottom right corner with
    x-coordinates that never decrease, the plateau is always drawn with the
    positive width [110 / totalTime] (half a second of the time axis), and
    the plateau lies inside the box exactly when sustain is between 0 and
    1. *)
Theorem ADSRGraph_geometry (a d s r : Q) :
  (0 <= a)%Q -> (0 <= d)%Q -> (0 <= r)%Q ->
  exists x1 x2 x3 y : Q,
    ADSRGraph_points a d s r
      = [ (0, 80); (x1, 0); (x2, y); (x3, y); (220, 80) ]%Q
    /\ (0 < a + d + r + 0.5)%Q
    /\ (0 <= x1)%Q /\ (x1 <= x2)%Q /\ (x2 < x3)%Q /\ (x3 <= 220)%Q
    /\ x3 - x2 == 110 / (a + d + r + 0.5)
    /\ 220 - x3 == r / (a + d + r + 0.5) * 220
    /\ ((0 <= y <= 80)%Q <-> (0 <= s <= 1)%Q).
Proof.
  intros Ha Hd Hr.
  destruct (Qinv_total_pos a d r Ha Hd Hr) as (u & Hu & HTu & Hdiv).
  unfold ADSRGraph_points. cbv zeta.
  eexists. eexists. eexists. eexists. split; [reflexivity|].
  rewrite !Hdiv.
  assert (Hau : (0 <= a * u)%Q) by (apply Qmult_le_0_compat; lra).
  assert (Hdu : (0 <= d * u)%Q) by (apply Qmult_le_0_compat; lra).
  assert (Hru : (0 <= r * u)%Q) by (apply Qmult_le_0_compat; lra).
  assert (Hsum : a * u + d * u + r * u + 0.5 * u == 1) by lra.
  repeat split; try lra.
Qed.

Lemma ADSRGraph_geometry_witness :
  (0 <= 0.01)%Q /\ (0 <= 0.1)%Q /\ (0 <= 0.2)%Q
  /\ exists x1 x2 x3 y : Q,
       ADSRGraph_points 0.01 0.1 0.7 0.2
         = [ (0, 80); (x1, 0); (x2, y); (x3, y); (220, 80) ]%Q
       /\ (x2 < x3)%Q /\ (0 <= y <= 80)%Q.
Proof.
  assert (Ha : (0 <= 0.01)%Q) by discriminate.
  assert (Hd : (0 <= 0.1)%Q) by discriminate.
  assert (Hr : (0 <= 0.2)%Q) by discriminate.
  split; [exact Ha|]. split; [exact Hd|]. split; [exact Hr|].
  destruct (ADSRGraph_geometry 0.01 0.1 0.7 0.2 Ha Hd Hr)
    as (x1 & x2 & x3 & y & E & _ & _ & _ & H23 & _ & _ & _ & Hy).
  exists x1, x2, x3, y. split; [exact E|]. split; [exact H23|].
  apply Hy. split; discriminate.
Defined.

Ltac slia := unfold slot in *; lia.

(** X3. Editing a step.  For an index inside the sequence the handler
    commits a sequence of the same length in which that slot holds the new
    value and every other slot is as in the handler's render; past the end
    the sequence grows to [i + 1] slots, the new value last and the slots
    in between left as holes, which play as rests.  The handler returns and
    changes nothing but the committed sequence. *)
Theorem handleStepChange_updates_one_slot (e : Render.t) (i : nat)
    (val : string) (w : World) :
  exists w' : World,
    handleStepChange e i val w = Ok tt w'
    /\ w' = set_state (with_steps (Render.steps (state w'))) w
    /\ Render.steps (state w') !! i = Some (Some val)
    /\ (forall j : nat,
          j <> i -> j < length (Render.steps e) ->
          Render.steps (state w') !! j = Render.steps e !! j)
    /\ (i < length (Render.steps e) ->
        length (Render.steps (state w')) = length (Render.steps e))
    /\ (length (Render.steps e) <= i ->
        length (Render.steps (state w')) = S i
        /\ forall j : nat,
             length (Render.steps e) <= j -> j < i ->
             Render.steps (state w') !! j = Some None
             /\ note_freq (steps_get (Render.steps (state w'))
                             (Int (Z.of_nat j))) = None).
Proof.
  eexists. split; [reflexivity|]. split; [reflexivity|].
  cbn [state set_state with_steps Render.steps]. unfold array_set.
  destruct (Nat.ltb_spec i (length (Render.steps e))) as [Hlt|Hge].
  - split; [apply list_lookup_insert_eq, Hlt|].
    split; [intros j Hj _; apply list_lookup_insert_ne; congruence|].
    split; [intros _; apply length_insert|]. intros H. slia.
  - assert (Hlen : length (Render.steps e ++
                     replicate (i - length (Render.steps e)) None
                     ++ [Some val]) = S i)
      by (rewrite !length_app, length_replicate; simpl; slia).
    split.
    { rewrite lookup_app_r by slia. rewrite lookup_app_r
        by (rewrite length_replicate; slia).
      rewrite length_replicate, Nat.sub_diag. reflexivity. }
    split; [intros j _ Hj; apply lookup_app_l, Hj|].
    split; [intros H; slia|]. intros _. split; [exact Hlen|].
    intros j Hj1 Hj2.
    assert (Hhole : (Render.steps e ++
                       replicate (i - length (Render.steps e)) None
                       ++ [Some val]) !! j = Some None).
    { rewrite lookup_app_r by slia. rewrite lookup_app_l
        by (rewrite length_replicate; slia).
      apply lookup_replicate_2. slia. }
    split; [exact Hhole|].
    unfold steps_get. destruct (Z.ltb_spec (Z.of_nat j) 0); [slia|].
    rewrite Nat2Z.id, Hhole. reflexivity.
Qed.

(** X4. The reverb kernel, for a random source with values in [0, 1), a
    power that is non-negative on positive bases and a positive number of
    samples (which [createBuffer] requires): the buffer has two
    channels of [rate * duration] samples each; the base of the power is
    in (0, 1] at every index, 1 at index 0; and the magnitude of every
    sample is at most the decaying envelope
    [pow (1 - i / length) decay]. *)
Theorem createImpulseResponse_shape (random : nat -> nat -> Q)
    (pow : Q -> Q -> Q) (rate duration : nat) (decay : Q) :
  (forall c i : nat, (0 <= random c i < 1)%Q) ->
  (forall x y : Q, (0 < x)%Q -> (0 <= pow x y)%Q) ->
  0 < rate * duration ->
  let length := rate * duration in
  let buffer := createImpulseResponse random pow rate duration decay in
  Datatypes.length buffer = 2
  /\ forall (c : nat) (channel : list Q),
       buffer !! c = Some channel ->
       Datatypes.length channel = length
       /\ forall (i : nat) (x : Q),
            channel !! i = Some x ->
            let base := (1 - inject_Z (Z.of_nat i)
                               / inject_Z (Z.of_nat length))%Q in
            (0 < base <= 1)%Q
            /\ (i = 0 -> base == 1)
            /\ x = ((random c i * 2 - 1) * pow base decay)%Q
            /\ (- pow base decay <= x <= pow base decay)%Q.
Proof.
  intros Hrand Hpow _ length buffer. split; [reflexivity|].
  intros c channel Hc. subst buffer. unfold createImpulseResponse in Hc.
  rewrite list_lookup_fmap in Hc.
  destruct (seq 0 2 !! c) as [c'|] eqn:Ec; [|discriminate].
  apply lookup_seq in Ec as [-> _]. simpl in Hc. injection Hc as <-.
  split; [rewrite length_map, length_seq; reflexivity|].
  intros i x Hx. rewrite list_lookup_fmap in Hx.
  destruct (seq 0 (rate * duration) !! i) as [i'|] eqn:Ei; [|discriminate].
  apply lookup_seq in Ei as [-> Hi]. simpl in Hx. injection Hx as <-.
  fold length in Hi |- *. intros base.
  assert (HL : (0 < inject_Z (Z.of_nat length))%Q)
    by (change 0%Q with (inject_Z 0); rewrite <- Zlt_Qlt; lia).
  assert (Hq : (0 <= inject_Z (Z.of_nat i) / inject_Z (Z.of_nat length) < 1)%Q).
  { split.
    - apply Qle_shift_div_l; [exact HL|]. rewrite Qmult_0_l.
      change 0%Q with (inject_Z 0). rewrite <- Zle_Qle. lia.
    - apply Qlt_shift_div_r; [exact HL|]. rewrite Qmult_1_l.
      rewrite <- Zlt_Qlt. lia. }
  assert (Hbase : (0 < base <= 1)%Q) by (subst base; lra).
  split; [exact Hbase|]. split.
  - intros ->. subst base. simpl Z.of_nat.
    unfold Qdiv. rewrite Qmult_0_l. ring.
  - split; [reflexivity|].
    assert (Hp := Hpow base decay (proj1 Hbase)).
    assert (Hr := Hrand c i).
    subst base. revert Hp.
    generalize (pow (1 - inject_Z (Z.of_nat i) / inject_Z (Z.of_nat length))%Q
                  decay) as p.
    intros p Hp.
    assert (H1 : (0 <= random c i * p)%Q)
      by (apply Qmult_le_0_compat; [apply Hr|exact Hp]).
    assert (H2 : (0 <= (1 - random c i) * p)%Q)
      by (apply Qmult_le_0_compat; [lra|exact Hp]).
    split; lra.
Qed.

Lemma createImpulseResponse_shape_witness :
  let random := fun c i : nat => (1 # 4)%Q in
  let pow := fun x y : Q => (x * x)%Q in
  (forall c i : nat, (0 <= random c i < 1)%Q)
  /\ (forall x y : Q, (0 < x)%Q -> (0 <= pow x y)%Q)
  /\ 0 < 4 * 2
  /\ Datatypes.length (createImpulseResponse random pow 4 2 2) = 2
  /\ forall channel : list Q,
       createImpulseResponse random pow 4 2 2 !! 1 = Some channel ->
       Datatypes.length channel = 8.
Proof.
  intros random pow.
  assert (H1 : forall c i : nat, (0 <= random c i < 1)%Q)
    by (intros c i; unfold random; split; [discriminate|reflexivity]).
  assert (H2 : forall x y : Q, (0 < x)%Q -> (0 <= pow x y)%Q)
    by (intros x y Hx; unfold pow; nra).
  assert (H3 : 0 < 4 * 2) by (simpl; lia).
  split; [exact H1|]. split; [exact H2|]. split; [exact H3|].
  destruct (createImpulseResponse_shape random pow 4 2 2 H1 H2 H3)
    as [Hl Hc].
  split; [exact Hl|]. intros channel Hch. apply (Hc 1 channel Hch).
Defined.

(** ** Invariants, by induction on the events *)

Lemma reachable_step_ind (P : World -> Prop) :
  P init ->
  (forall (w : World) (ev : Event) (w' : World),
     reachable w -> P w -> step w ev w' -> P w') ->
  forall w : World, reachable w -> P w.
Proof.
  intros H0 Hs w Hw. induction Hw as [|ev w Hw IH]; [exact H0|].
  apply (Hs w ev); [exact Hw|exact IH|apply dispatch_step, Hw].
Qed.

Lemma ticked_fields (e : Render.t) (i : index) (p : World) :
  state (ticked e i p) = state p /\ playing (ticked e i p) = playing p
  /\ playingRef (ticked e i p) = playingRef p
  /\ currentStep (ticked e i p) = i
  /\ timers (ticked e i p)
     = timers p ++ [mkTimer (nextTimerId p) (stepMs e) e i]
  /\ stepTimerRef (ticked e i p) = Some (nextTimerId p)
  /\ currentTime (ticked e i p) = currentTime p.
Proof. unfold ticked. destruct (note_freq _); repeat split. Qed.

Lemma ticked_nodes (e : Render.t) (i : index) (p : World) :
  nodes (ticked e i p)
    = torn_nodes p
      ++ match note_freq (steps_get (Render.steps e) i) with
         | Some freq =>
             voice_nodes e freq (currentTime p) (length (nodes p)) 1 3
         | None => []
         end.
Proof.
  unfold ticked. destruct (note_freq _); cbn.
  - rewrite length_torn_nodes. reflexivity.
  - rewrite app_nil_r. reflexivity.
Qed.

Lemma ticked_refs (e : Render.t) (i : index) (p : World) :
  (note_freq (steps_get (Render.steps e) i) = None
   /\ lastOscRef (ticked e i p) = None /\ lastGainRef (ticked e i p) = None
   /\ lastFilterRef (ticked e i p) = None)
  \/ (exists freq : Q,
        note_freq (steps_get (Render.steps e) i) = Some freq
        /\ lastOscRef (ticked e i p) = Some (length (nodes p))
        /\ lastGainRef (ticked e i p) = Some (length (nodes p) + 1)
        /\ lastFilterRef (ticked e i p) = Some (length (nodes p) + 2)).
Proof.
  unfold ticked. destruct (note_freq _) as [freq|]; cbn.
  - right. exists freq. rewrite length_torn_nodes. auto.
  - left. auto.
Qed.

Lemma reachable_sync (w : World) : reachable w -> sync_ok w.
Proof.
  apply reachable_step_ind; clear w.
  - split; [reflexivity|]. split; [discriminate|]. intros _.
    repeat split.
  - intros w ev w' Hreach (Hpp & Hon & Hoff) Hstep.
    destruct Hstep; try (split; [exact Hpp|split; [exact Hon|exact Hoff]]).
    + (* play *)
      destruct (Hoff H) as (Ht & _).
      destruct (ticked_fields (state w) (Int 0)
                  (set_playingRef true (set_playing true w)))
        as (_ & F1 & F2 & F3 & F4 & F5 & _).
      unfold sync_ok. rewrite F1, F2, F3, F4, F5. cbn. rewrite Ht.
      split; [reflexivity|]. split; [|discriminate].
      intros _. eexists. repeat split.
    + (* stop *)
      split; [reflexivity|]. split; [discriminate|]. intros _.
      split; [apply stopped_timers, reachable_timers_ok, Hreach|].
      repeat split.
    + (* timer *)
      destruct (ticked_fields (env t)
                  (succ_rem (idx t) (length (Render.steps (env t))))
                  (set_timers (fun _ => []) w))
        as (_ & F1 & F2 & F3 & F4 & F5 & _).
      unfold sync_ok. rewrite F1, F2, F3, F4, F5. cbn.
      split; [exact Hpp|]. split; [|congruence].
      intros _. eexists. repeat split.
Qed.

Lemma array_set_length (l : list slot) (i : nat) (v : string) :
  length l <= length (array_set l i v).
Proof.
  unfold array_set. destruct (Nat.ltb i (length l)).
  - rewrite length_insert. reflexivity.
  - rewrite length_app. lia.
Qed.

Lemma reachable_envs (w : World) : reachable w -> envs_ok w.
Proof.
  apply reachable_step_ind; clear w.
  - split; [|intros t []]. split; [split; discriminate|].
    split; [intros []; split; discriminate|]. vm_compute. lia.
  - intros w ev w' Hreach [Hst Htm] Hstep.
    assert (Hkeep : forall f upd,
              env_ok (f (state w)) -> envs_ok (edited f upd w))
      by (intros f upd Hf; split; [exact Hf|exact Htm]).
    destruct Hst as (Hb & Ha & Hs).
    assert (Hst : env_ok (state w)) by (split; [|split]; assumption).
    destruct Hstep; try (split; assumption);
      try (apply Hkeep; split; [|split]; assumption).
    + destruct (ticked_fields (state w) (Int 0)
                  (set_playingRef true (set_playing true w)))
        as (F0 & _ & _ & _ & F4 & _).
      split; [rewrite F0; exact Hst|]. rewrite F4. cbn.
      intros t Ht. apply in_app_or in Ht as [Ht|[<-|[]]]; auto.
    + split; [exact Hst|]. cbn. intros t Ht.
      destruct (stepTimerRef w); [apply List.filter_In in Ht as [Ht _]|];
        auto.
    + apply Hkeep. split; [|split; assumption].
      apply clamp_spec. discriminate.
    + apply Hkeep. split; [exact Hb|]. split; [|exact Hs].
      intros f. cbn.
      destruct (clamp_spec val 0 2) as (Hc & _); [discriminate|].
      specialize (Ha f). destruct field, f; assumption.
    + apply Hkeep. split; [exact Hb|]. split; [exact Ha|]. cbn.
      pose proof (array_set_length (Render.steps (state w)) i val). lia.
    + destruct (ticked_fields (env t)
                  (succ_rem (idx t) (length (Render.steps (env t))))
                  (set_timers (fun _ => []) w))
        as (F0 & _ & _ & _ & F4 & _).
      split; [rewrite F0; exact Hst|]. rewrite F4. cbn.
      intros t' [<-|[]]. cbn. apply Htm.
      apply List.find_some in H as [Hin _]. exact Hin.
Qed.

Lemma filter_none_on {A : Type} (f : A -> bool) (l : list A) :
  (forall x : A, In x l -> f x = false) -> List.filter f l = [].
Proof.
  intros Hf. induction l as [|x l IH]; [reflexivity|].
  cbn. rewrite (Hf x (or_introl eq_refl)). apply IH.
  intros y Hy. apply Hf. right. exact Hy.
Qed.

Lemma filter_seq_single (f : nat -> bool) (len n : nat) :
  n < len -> f n = true ->
  (forall x : nat, x < len -> x <> n -> f x = false) ->
  List.filter f (seq 0 len) = [n].
Proof.
  intros Hn Hf Hother.
  replace len with (n + S (len - S n)) by lia.
  rewrite seq_app, List.filter_app. cbn [seq List.filter Nat.add].
  rewrite Hf.
  rewrite !filter_none_on; [reflexivity| |];
    intros x Hx; apply in_seq in Hx; apply Hother; lia.
Qed.

Lemma reachable_index (w : World) : reachable w -> index_ok w.
Proof.
  apply reachable_step_ind; clear w.
  - exists (-1)%Z. split; [reflexivity|]. split; [lia|]. intros t [].
  - intros w ev w' Hreach (z & Hz & Hz1 & Htm) Hstep.
    assert (Hsame : index_ok w) by (exists z; auto).
    pose proof (reachable_sync w Hreach) as (_ & Hon & Hoff).
    pose proof (reachable_envs w Hreach) as [Hst Henv].
    destruct Hstep; try exact Hsame.
    + destruct (ticked_fields (state w) (Int 0)
                  (set_playingRef true (set_playing true w)))
        as (_ & _ & _ & F3 & F4 & _).
      exists 0%Z. rewrite F3, F4. cbn. rewrite (proj1 (Hoff H)).
      split; [reflexivity|]. split; [lia|].
      intros t [<-|[]]. cbn. split; [reflexivity|].
      destruct Hst as (_ & _ & Hlen). unfold slot in *. lia.
    + exists (-1)%Z. split; [reflexivity|]. split; [lia|].
      rewrite (stopped_timers w (reachable_timers_ok w Hreach)).
      intros t [].
    + pose proof H as Hf. apply List.find_some in Hf as [Hin _].
      destruct (Htm t Hin) as (Hidx & Hz0 & Hzlen).
      destruct (Henv t Hin) as (_ & _ & Hlen).
      destruct (ticked_fields (env t)
                  (succ_rem (idx t) (length (Render.steps (env t))))
                  (set_timers (fun _ => []) w))
        as (_ & _ & _ & F3 & F4 & _).
      assert (Hne : Nat.eqb (length (Render.steps (env t))) 0 = false)
        by (apply Nat.eqb_neq; unfold slot in *; lia).
      exists (Z.rem (z + 1) (Z.of_nat (length (Render.steps (env t))))).
      rewrite F3, F4, Hidx. cbn [succ_rem]. rewrite Hne.
      split; [reflexivity|].
      assert (Hrem : (0 <= Z.rem (z + 1)
                              (Z.of_nat (length (Render.steps (env t))))
                      < Z.of_nat (length (Render.steps (env t))))%Z)
        by (apply Z.rem_bound_pos; lia).
      split; [lia|]. cbn. intros t' [<-|[]]. cbn.
      split; [reflexivity|exact Hrem].
Qed.

Lemma no_voice_no_live (w : World) :
  only_last_live w -> lastOscRef w = None -> live_voices w = [].
Proof.
  intros Hw Ho. apply filter_none. intros id.
  destruct (live w id) eqn:E; [|reflexivity].
  apply Hw in E. congruence.
Qed.

(** X5. In every reachable world the [playing] state equals [playingRef];
    while playing, exactly one tick timer is pending, it is the one
    [stepTimerRef] holds and it was registered by the tick of the published
    step; while stopped, no timer is pending, the published step is -1 and
    no voice is live. *)
Theorem playing_iff_one_pending_tick (w : World) :
  reachable w ->
  playing w = playingRef w
  /\ (playingRef w = true ->
      exists t : Timer,
        timers w = [t] /\ stepTimerRef w = Some (timerId t)
        /\ idx t = currentStep w)
  /\ (playingRef w = false ->
      timers w = [] /\ currentStep w = Int (-1) /\ live_voices w = []).
Proof.
  intros Hreach. destruct (reachable_sync w Hreach) as (Hpp & Hon & Hoff).
  split; [exact Hpp|]. split.
  - intros Hp. destruct (Hon Hp) as (t & Ht & Hs & Hi & _). eauto.
  - intros Hp. destruct (Hoff Hp) as (Ht & Hc & Ho & _).
    repeat split; try assumption.
    apply no_voice_no_live; [apply (reachable_Inv w Hreach)|exact Ho].
Qed.

Lemma playing_iff_one_pending_tick_witness :
  let w := run [Play; TimerFires 1; ChangeBpm 90; TimerFires 2] init in
  reachable w /\ playingRef w = true
  /\ exists t : Timer, timers w = [t] /\ idx t = Int 2.
Proof.
  intros w.
  assert (Hr : reachable w) by apply reachable_run, reachable_init.
  split; [exact Hr|]. split; [reflexivity|].
  destruct (playing_iff_one_pending_tick w Hr) as (_ & Hon & _).
  destruct (Hon eq_refl) as (t & Ht & _ & Hi). exists t.
  split; [exact Ht|]. rewrite Hi. reflexivity.
Defined.

Lemma stepMs_bounds (e : Render.t) :
  (40 <= Render.bpm e <= 300)%Q -> (50 <= stepMs e <= 375)%Q.
Proof.
  intros [H1 H2]. unfold stepMs. unfold Qdiv.
  assert (Hpos : (0 < Render.bpm e)%Q) by lra.
  assert (Hu : (0 < / Render.bpm e)%Q) by (apply Qinv_lt_0_compat, Hpos).
  assert (Hbu : Render.bpm e * / Render.bpm e == 1)
    by (apply Qmult_inv_r; lra).
  revert Hu Hbu. generalize (/ Render.bpm e)%Q as u. intros u Hu Hbu.
  assert (Ha : (0 <= (300 - Render.bpm e) * u)%Q)
    by (apply Qmult_le_0_compat; lra).
  assert (Hb : (0 <= (Render.bpm e - 40) * u)%Q)
    by (apply Qmult_le_0_compat; lra).
  assert (E4 : / 4 == 1 # 4) by reflexivity.
  rewrite E4. split; lra.
Qed.

(** X6. In every reachable world the tempo is between 40 and 300 bpm and
    attack, decay, sustain and release are between 0 and 2, so the step
    interval is between 50 and 375 ms; the same holds for the environment
    of every pending timer, whose delay is the step interval of that
    environment. *)
Theorem tempo_and_envelope_stay_in_range (w : World) :
  reachable w ->
  (40 <= Render.bpm (state w) <= 300)%Q
  /\ (forall f : Field, (0 <= adsr_get (Render.adsr (state w)) f <= 2)%Q)
  /\ (50 <= stepMs (state w) <= 375)%Q
  /\ forall t : Timer,
       In t (timers w) ->
       delay t = stepMs (env t) /\ (50 <= delay t <= 375)%Q
       /\ (forall f : Field, (0 <= adsr_get (Render.adsr (env t)) f <= 2)%Q).
Proof.
  intros Hreach. destruct (reachable_envs w Hreach) as [(Hb & Ha & _) Htm].
  split; [exact Hb|]. split; [exact Ha|].
  split; [apply stepMs_bounds, Hb|].
  intros t Ht. destruct (Htm t Ht) as (Hbt & Hat & _).
  destruct (reachable_sync w Hreach) as (_ & Hon & Hoff).
  assert (Hd : delay t = stepMs (env t)).
  { destruct (playingRef w) eqn:Hp.
    - destruct (Hon eq_refl) as (t0 & Ht0 & _ & _ & Hd0).
      rewrite Ht0 in Ht. destruct Ht as [<-|[]]. exact Hd0.
    - rewrite (proj1 (Hoff eq_refl)) in Ht. destruct Ht. }
  split; [exact Hd|]. split; [rewrite Hd; apply stepMs_bounds, Hbt|exact Hat].
Qed.

Lemma tempo_and_envelope_stay_in_range_witness :
  let w := run [ChangeBpm 1000; ChangeAdsr fa (-3); Play] init in
  reachable w
  /\ (40 <= Render.bpm (state w) <= 300)%Q
  /\ (0 <= adsr_get (Render.adsr (state w)) fa <= 2)%Q.
Proof.
  intros w.
  assert (Hr : reachable w) by apply reachable_run, reachable_init.
  split; [exact Hr|].
  destruct (tempo_and_envelope_stay_in_range w Hr) as (Hb & Ha & _).
  split; [exact Hb|apply Ha].
Defined.

(** X7. In every reachable world the published step is an integer from -1
    up, never [NaN]; the step of a pending timer is the published one and
    lies inside the sequence of the timer's environment; and when that
    timer fires, the step published next is its successor modulo the
    length of that sequence. *)
Theorem step_index_cycles_in_range (w : World) :
  reachable w ->
  exists z : Z,
    currentStep w = Int z /\ (-1 <= z)%Z
    /\ forall t : Timer,
         In t (timers w) ->
         let len := Z.of_nat (length (Render.steps (env t))) in
         idx t = Int z /\ (0 <= z < len)%Z
         /\ currentStep (world_of (dispatch (TimerFires (timerId t)) w))
            = Int ((z + 1) mod len).
Proof.
  intros Hreach. destruct (reachable_index w Hreach) as (z & Hz & Hz1 & Htm).
  exists z. split; [exact Hz|]. split; [exact Hz1|].
  intros t Ht len. destruct (Htm t Ht) as (Hidx & Hrange).
  split; [exact Hidx|]. split; [exact Hrange|].
  destruct (reachable_sync w Hreach) as (_ & Hon & Hoff).
  destruct (playingRef w) eqn:Hp;
    [|rewrite (proj1 (Hoff eq_refl)) in Ht; destruct Ht].
  destruct (Hon eq_refl) as (t0 & Ht0 & _).
  rewrite Ht0 in Ht. destruct Ht as [<-|[]].
  destruct (reachable_Inv w Hreach) as [(Hc & _ & _) _].
  destruct (reachable_layout w Hreach) as (Hd & _ & Hv & _ & _).
  unfold dispatch. rewrite bind_gets, Ht0.
  unfold find_timer. cbn [List.find]. rewrite Nat.eqb_refl.
  unfold clearTimeout, timerCallback. step. cbn [playingRef set_timers].
  rewrite Hp, nextStep_ticked by assumption. cbn [world_of].
  rewrite (proj1 (proj2 (proj2 (proj2 (ticked_fields _ _ _))))).
  rewrite Hidx. unfold succ_rem.
  destruct (Nat.eqb_spec (length (Render.steps (env t0))) 0) as [E|_];
    [subst len; rewrite E in Hrange; simpl in Hrange; lia|].
  rewrite Z.rem_mod_nonneg by lia. reflexivity.
Qed.

Lemma step_index_cycles_in_range_witness :
  let w := run [Play; TimerFires 1] init in
  reachable w
  /\ exists z : Z,
       currentStep w = Int z /\ (-1 <= z)%Z
       /\ forall t : Timer,
            In t (timers w) ->
            currentStep (world_of (dispatch (TimerFires (timerId t)) w))
              = Int ((z + 1) mod Z.of_nat (length (Render.steps (env t)))).
Proof.
  intros w.
  assert (Hr : reachable w) by apply reachable_run, reachable_init.
  split; [exact Hr|].
  destruct (step_index_cycles_in_range w Hr) as (z & Hz & Hz1 & Htm).
  exists z. split; [exact Hz|]. split; [exact Hz1|].
  intros t Ht. apply (Htm t Ht).
Defined.

Lemma alter_ref_other (g : AudioNode -> AudioNode) (r : option nat)
    (l : list AudioNode) (id : nat) :
  r <> Some id -> alter_ref g r l !! id = l !! id.
Proof. intros H. rewrite lookup_alter_ref. case_decide; congruence. Qed.

Lemma layout_refs_high (w : World) (id : nat) :
  layout w ->
  lastOscRef w = Some id \/ lastGainRef w = Some id \/ lastFilterRef w = Some id ->
  4 <= id < length (nodes w).
Proof.
  intros (_ & _ & _ & _ & [(Ho & Hg & Hf)|(n & Hn & Hlen & Ho & Hg & Hf)]) H.
  - destruct H as [H|[H|H]]; congruence.
  - destruct H as [H|[H|H]]; rewrite ?Ho, ?Hg, ?Hf in H;
      injection H as <-; lia.
Qed.

Lemma torn_nodes_low (w : World) (id : nat) :
  layout w -> id < 4 -> torn_nodes w !! id = nodes w !! id.
Proof.
  intros Hl Hid. unfold torn_nodes.
  rewrite !alter_ref_other; [reflexivity|..]; intros H;
    assert (4 <= id < length (nodes w))
      by (apply (layout_refs_high w id Hl); auto); lia.
Qed.

Lemma persistent_frame (w w' : World) :
  (forall id : nat, id < 4 -> nodes w' !! id = nodes w !! id) ->
  Render.reverb (state w') == Render.reverb (state w) ->
  persistent_ok w -> persistent_ok w'.
Proof.
  intros Hn Hq (n0 & n1 & n2 & n3 & H).
  exists n0, n1, n2, n3. rewrite !Hn by lia. rewrite Hq. exact H.
Qed.

Lemma ticked_low (e : Render.t) (i : index) (p : World) (id : nat) :
  layout p -> id < 4 -> nodes (ticked e i p) !! id = nodes p !! id.
Proof.
  intros Hl Hid. rewrite ticked_nodes.
  rewrite lookup_app_l
    by (rewrite length_torn_nodes; destruct Hl as (_ & _ & _ & H & _); lia).
  apply torn_nodes_low; assumption.
Qed.

Lemma mix_lookup_other (f1 f2 : AudioNode -> AudioNode) (l : list AudioNode)
    (id : nat) :
  id <> 1 -> id <> 2 -> alter f2 2 (alter f1 1 l) !! id = l !! id.
Proof. intros H1 H2. rewrite !list_lookup_alter_ne by congruence. reflexivity. Qed.

Lemma mix_lookup_dry (f1 f2 : AudioNode -> AudioNode) (l : list AudioNode) :
  alter f2 2 (alter f1 1 l) !! 1 = f1 <$> l !! 1.
Proof.
  rewrite list_lookup_alter_ne by lia. apply list_lookup_alter_eq.
Qed.

Lemma mix_lookup_wet (f1 f2 : AudioNode -> AudioNode) (l : list AudioNode) :
  alter f2 2 (alter f1 1 l) !! 2 = f2 <$> l !! 2.
Proof.
  rewrite list_lookup_alter_eq, list_lookup_alter_ne by lia. reflexivity.
Qed.

Lemma reachable_persistent (w : World) : reachable w -> persistent_ok w.
Proof.
  apply reachable_step_ind; clear w.
  - vm_compute. do 4 eexists. repeat split.
  - intros w ev w' Hreach HP Hstep.
    pose proof (reachable_layout w Hreach) as Hl.
    assert (Hedit : forall f g r,
              Render.reverb (f (state w)) == Render.reverb (state w) ->
              (r = None \/ r = lastOscRef w \/ r = lastGainRef w
               \/ r = lastFilterRef w) ->
              persistent_ok (edited f (alter_ref g r) w)).
    { intros f g r Hq Hr. revert HP. apply persistent_frame; [|exact Hq].
      intros id Hid. cbn. apply alter_ref_other. intros E.
      assert (4 <= id < length (nodes w)); [|lia].
      apply (layout_refs_high w id Hl).
      destruct Hr as [-> | [-> | [-> | ->]]]; auto. discriminate. }
    assert (Hsame : forall f,
              Render.reverb (f (state w)) == Render.reverb (state w) ->
              persistent_ok (edited f (fun l => l) w))
      by (intros f Hq; revert HP; apply persistent_frame;
          [reflexivity|exact Hq]).
    destruct Hstep; try exact HP;
      try (apply Hsame; reflexivity).
    + assert (Hlp : layout (set_playingRef true (set_playing true w)))
        by (revert Hl; apply layout_frame; repeat split).
      revert HP. apply persistent_frame.
      * intros id Hid. exact (ticked_low _ _ _ id Hlp Hid).
      * rewrite (proj1 (ticked_fields _ _ _)). reflexivity.
    + revert HP. apply persistent_frame; [|reflexivity].
      intros id Hid. cbn. apply torn_nodes_low; assumption.
    + apply Hedit; [reflexivity|].
      destruct (changed_string _ _); auto.
    + apply Hedit; [reflexivity|].
      destruct (changed_number _ _); auto.
    + apply Hedit; [reflexivity|].
      destruct (changed_number _ _); auto.
    + (* reverb *)
      destruct HP as (n0 & n1 & n2 & n3 & H0 & K0 & O0 & H1 & K1 & O1 & E1
                      & V1 & H2 & K2 & O2 & E2 & V2 & H3 & K3 & O3).
      unfold changed_number.
      destruct (Qeq_bool (Render.reverb (state w)) v) eqn:Hq; cbn [negb].
      * apply Qeq_bool_iff in Hq.
        exists n0, n1, n2, n3. cbn. rewrite <- Hq. auto 20.
      * exists n0.
        exists (with_param (fun p => mkParam (1 - v)%Q (events p)) n1).
        exists (with_param (fun p => mkParam v (events p)) n2).
        exists n3. cbn.
        rewrite (mix_lookup_other _ _ _ 0), (mix_lookup_other _ _ _ 3) by lia.
        rewrite mix_lookup_dry, mix_lookup_wet.
        rewrite H0, H1, H2, H3. cbn.
        repeat split; try assumption; reflexivity.
    + apply Hedit; [reflexivity|auto].
    + assert (Hlp : layout (set_timers (fun _ => []) w))
        by (revert Hl; apply layout_frame; repeat split).
      revert HP. apply persistent_frame.
      * intros id' Hid. exact (ticked_low _ _ _ id' Hlp Hid).
      * rewrite (proj1 (ticked_fields _ _ _)). reflexivity.
Qed.

(** X8. In every reachable world the persistent graph is as the mount
    effect built it: node 0 is the destination; the dry gain (node 1) and
    the wet gain (node 2) are connected to the destination only and carry
    no automation; the convolver (node 3) is connected to the wet gain
    only; and the values of the two gains are [1 - reverb] and [reverb] for
    the committed reverb amount, so they sum to 1. *)
Theorem persistent_graph_is_never_rewired (w : World) :
  reachable w ->
  exists n0 n1 n2 n3 : AudioNode,
    dryGainRef w = Some 1 /\ wetGainRef w = Some 2 /\ convolverRef w = Some 3
    /\ nodes w !! 0 = Some n0 /\ kind n0 = Destination /\ outputs n0 = []
    /\ nodes w !! 1 = Some n1 /\ kind n1 = Gain /\ outputs n1 = [0]
    /\ events (param n1) = []
    /\ value (param n1) == 1 - Render.reverb (state w)
    /\ nodes w !! 2 = Some n2 /\ kind n2 = Gain /\ outputs n2 = [0]
    /\ events (param n2) = []
    /\ value (param n2) == Render.reverb (state w)
    /\ nodes w !! 3 = Some n3 /\ kind n3 = Convolver /\ outputs n3 = [2]
    /\ value (param n1) + value (param n2) == 1.
Proof.
  intros Hreach.
  destruct (reachable_layout w Hreach) as (Hd & Hw & Hv & _).
  destruct (reachable_persistent w Hreach)
    as (n0 & n1 & n2 & n3 & H0 & K0 & O0 & H1 & K1 & O1 & E1
        & V1 & H2 & K2 & O2 & E2 & V2 & H3 & K3 & O3).
  exists n0, n1, n2, n3. repeat (split; [assumption|]).
  rewrite V1, V2. ring.
Qed.

Lemma persistent_graph_is_never_rewired_witness :
  let w := run [Play; ChangeReverb 0.4; TimerFires 1; Stop] init in
  reachable w
  /\ exists n1 n2 : AudioNode,
       nodes w !! 1 = Some n1 /\ nodes w !! 2 = Some n2
       /\ outputs n1 = [0] /\ outputs n2 = [0]
       /\ value (param n1) + value (param n2) == 1.
Proof.
  intros w.
  assert (Hr : reachable w) by apply reachable_run, reachable_init.
  split; [exact Hr|].
  destruct (persistent_graph_is_never_rewired w Hr)
    as (n0 & n1 & n2 & n3 & _ & _ & _ & _ & _ & _ & H1 & _ & O1 & _ & _
        & H2 & _ & O2 & _ & _ & _ & _ & _ & Hsum).
  exists n1, n2. auto.
Defined.

Lemma voice_frame (w w' : World) :
  lastOscRef w' = lastOscRef w -> lastGainRef w' = lastGainRef w ->
  lastFilterRef w' = lastFilterRef w ->
  (forall (id : nat) (a : AudioNode),
     nodes w !! id = Some a ->
     exists b : AudioNode,
       nodes w' !! id = Some b /\ kind b = kind a /\ outputs b = outputs a
       /\ startTime b = startTime a /\ stopTime b = stopTime a
       /\ (kind a = BiquadFilter -> type b = type a)) ->
  voice_ok w -> voice_ok w'.
Proof.
  intros Ho Hg Hf Hn Hv n Hn'. rewrite Ho in Hn'.
  destruct (Hv n Hn') as (Eg & Ef & o & g & f & H1 & K1 & O1 & S1 & T1
                          & H2 & K2 & O2 & H3 & K3 & Y3 & O3).
  rewrite Hg, Hf. split; [exact Eg|]. split; [exact Ef|].
  destruct (Hn _ _ H1) as (o' & A1 & A2 & A3 & A4 & A5 & _).
  destruct (Hn _ _ H2) as (g' & B1 & B2 & B3 & _).
  destruct (Hn _ _ H3) as (f' & C1 & C2 & C3 & _ & _ & C6).
  exists o', g', f'.
  rewrite A2, A3, A4, A5, B2, B3, C2, C3, (C6 K3). auto 20.
Qed.

Lemma alter_ref_shape (g : AudioNode -> AudioNode) (r : option nat)
    (l : list AudioNode) (id : nat) (a : AudioNode) :
  keeps_shape g ->
  ((forall x : AudioNode, type (g x) = type x)
   \/ forall (j : nat) (x : AudioNode),
        r = Some j -> l !! j = Some x -> kind x <> BiquadFilter) ->
  l !! id = Some a ->
  exists b : AudioNode,
    alter_ref g r l !! id = Some b /\ kind b = kind a
    /\ outputs b = outputs a /\ startTime b = startTime a
    /\ stopTime b = stopTime a /\ (kind a = BiquadFilter -> type b = type a).
Proof.
  intros Hg Ht Ha. rewrite lookup_alter_ref, Ha.
  destruct (decide (r = Some id)) as [E|E]; cbn.
  - exists (g a). destruct (Hg a) as (G1 & G2 & G3 & G4).
    repeat (split; [reflexivity || assumption|]).
    intros Hk. destruct Ht as [Ht|Ht]; [apply Ht|].
    exfalso. exact (Ht id a E Ha Hk).
  - exists a. auto 10.
Qed.

Lemma keeps_shape_param (f : AudioParam -> AudioParam) :
  keeps_shape (with_param f).
Proof. intros a. repeat split. Qed.

Lemma keeps_shape_type (t : string) : keeps_shape (with_type t).
Proof. intros a. repeat split. Qed.

Lemma reachable_voice (w : World) : reachable w -> voice_ok w.
Proof.
  apply reachable_step_ind; clear w.
  - intros n H. vm_compute in H. discriminate.
  - intros w ev w' Hreach HV Hstep.
    pose proof (reachable_layout w Hreach) as Hl.
    assert (Hticked : forall e i p,
              nodes p = nodes w -> voice_ok (ticked e i p)).
    { intros e i p Hp n Hn.
      destruct (ticked_refs e i p)
        as [(_ & Ho & _)|(freq & Hfreq & Ho & Hg & Hf)]; [congruence|].
      rewrite Ho in Hn. injection Hn as <-.
      split; [exact Hg|]. split; [exact Hf|].
      rewrite ticked_nodes, Hfreq.
      assert (Hk : forall k,
                (torn_nodes p ++ voice_nodes e freq (currentTime p)
                                   (length (nodes p)) 1 3)
                  !! (length (nodes p) + k)
                = voice_nodes e freq (currentTime p) (length (nodes p)) 1 3
                    !! k).
      { intros k. rewrite lookup_app_r by (rewrite length_torn_nodes; lia).
        rewrite length_torn_nodes. f_equal. lia. }
      pose proof (Hk 0) as H0. rewrite Nat.add_0_r in H0.
      do 3 eexists. rewrite H0, !Hk. cbn.
      repeat split; eauto. }
    assert (Hedit : forall f g r,
              keeps_shape g ->
              ((forall x : AudioNode, type (g x) = type x)
               \/ r = None \/ r = lastOscRef w) ->
              voice_ok (edited f (alter_ref g r) w)).
    { intros f g r Hg Ht.
      apply (voice_frame w (edited f (alter_ref g r) w));
        [reflexivity|reflexivity|reflexivity| |exact HV].
      intros id a Ha. cbn. apply alter_ref_shape; [exact Hg| |exact Ha].
      destruct Ht as [Ht|[->| ->]]; [left; exact Ht|right..].
      - discriminate.
      - intros j x Hj Hx Hk. destruct (HV j Hj) as (_ & _ & o & _ & _ & Ho
                                                    & Ko & _).
        rewrite Hx in Ho. injection Ho as <-. congruence. }
    assert (Hsame : forall f, voice_ok (edited f (fun l => l) w))
      by (intros f; exact HV).
    destruct Hstep; try exact HV; try apply Hsame.
    + apply Hticked. reflexivity.
    + intros n Hn. discriminate.
    + apply Hedit; [apply keeps_shape_type|right].
      destruct (changed_string _ _); auto.
    + apply Hedit; [apply keeps_shape_param|left; reflexivity].
    + apply Hedit; [apply keeps_shape_param|left; reflexivity].
    + revert HV. apply voice_frame; try reflexivity.
      intros id a Ha. cbn. destruct (changed_number _ _); [|eauto 10].
      destruct (decide (id = 1)) as [->|N1];
        [|destruct (decide (id = 2)) as [->|N2]].
      * rewrite mix_lookup_dry, Ha. cbn. eauto 10.
      * rewrite mix_lookup_wet, Ha. cbn. eauto 10.
      * rewrite mix_lookup_other, Ha by assumption. eauto 10.
    + apply Hedit; [apply keeps_shape_param|left; reflexivity].
    + apply Hticked. reflexivity.
Qed.

(** X9. In every reachable world with a live voice the three voice refs
    hold three consecutive nodes: an oscillator that has been started and
    has a stop time, connected to the filter only; a low-pass filter
    connected to the gain only; and a gain connected to the dry gain and to
    the convolver.  The refs are set together and cleared together. *)
Theorem live_voice_is_wired_as_built (w : World) :
  reachable w ->
  (lastOscRef w = None /\ lastGainRef w = None /\ lastFilterRef w = None)
  \/ exists (n : nat) (o g f : AudioNode),
       lastOscRef w = Some n /\ lastGainRef w = Some (n + 1)
       /\ lastFilterRef w = Some (n + 2)
       /\ nodes w !! n = Some o /\ kind o = Oscillator /\ outputs o = [n + 2]
       /\ is_Some (startTime o) /\ is_Some (stopTime o)
       /\ nodes w !! (n + 2) = Some f /\ kind f = BiquadFilter
       /\ type f = "lowpass" /\ outputs f = [n + 1]
       /\ nodes w !! (n + 1) = Some g /\ kind g = Gain
       /\ outputs g = [1; 3]
       /\ dryGainRef w = Some 1 /\ convolverRef w = Some 3.
Proof.
  intros Hreach.
  destruct (reachable_layout w Hreach)
    as (Hd & _ & Hc & _ & [Hnone|(n & _ & _ & Ho & Hg & Hf)]);
    [left; exact Hnone|right].
  destruct (reachable_voice w Hreach n Ho)
    as (_ & _ & o & g & f & H1 & K1 & O1 & S1 & T1 & H2 & K2 & O2
        & H3 & K3 & Y3 & O3).
  exists n, o, g, f. auto 20.
Qed.

Lemma live_voice_is_wired_as_built_witness :
  let w := run [Play; ChangeWaveform "triangle"; ChangeVolume 0.2] init in
  reachable w
  /\ exists (n : nat) (o g : AudioNode),
       lastOscRef w = Some n /\ nodes w !! n = Some o
       /\ outputs o = [n + 2]
       /\ nodes w !! (n + 1) = Some g /\ outputs g = [1; 3].
Proof.
  intros w.
  assert (Hr : reachable w) by apply reachable_run, reachable_init.
  split; [exact Hr|].
  destruct (live_voice_is_wired_as_built w Hr)
    as [(Ho & _)|(n & o & g & f & Ho & _ & _ & H1 & _ & O1 & _ & _ & _ & _
                  & _ & _ & H2 & _ & O2 & _)].
  - vm_compute in Ho. discriminate.
  - exists n, o, g. auto.
Defined.

Lemma edited_in_place (f : Render.t -> Render.t) (g : AudioNode -> AudioNode)
    (r : option nat) (w : World) :
  let w' := edited f (alter_ref g r) w in
  length (nodes w') = length (nodes w)
  /\ lastOscRef w' = lastOscRef w /\ lastGainRef w' = lastGainRef w
  /\ lastFilterRef w' = lastFilterRef w
  /\ timers w' = timers w /\ playingRef w' = playingRef w
  /\ currentStep w' = currentStep w
  /\ (forall id : nat, r <> Some id -> nodes w' !! id = nodes w !! id)
  /\ (forall id : nat, r = Some id -> nodes w' !! id = g <$> nodes w !! id).
Proof.
  cbn. split; [apply length_alter_ref|]. repeat (split; [reflexivity|]).
  split.
  - intros id. apply alter_ref_other.
  - intros id ->. cbn. apply list_lookup_alter_eq.
Qed.

Lemma dispatch_returns (ev : Event) (w : World) :
  reachable w -> dispatch ev w = Ok tt (world_of (dispatch ev w)).
Proof.
  intros Hreach.
  destruct (safe_dispatch ev w (reachable_Inv w Hreach)) as ([] & w' & E & _).
  rewrite E. reflexivity.
Qed.

Lemma step_filter_inv (w w' : World) (v : Q) :
  step w (ChangeFilter v) w' ->
  w' = edited (with_filter v)
         (alter_ref (with_param (fun p => mkParam v (events p)))
            (if changed_number (Render.filter (state w)) v
             then lastFilterRef w else None)) w.
Proof. intros S. inversion S. reflexivity. Qed.

Lemma step_volume_inv (w w' : World) (v : Q) :
  step w (ChangeVolume v) w' ->
  w' = edited (with_volume v)
         (alter_ref (with_param (fun p => mkParam v (events p)))
            (if changed_number (Render.volume (state w)) v
             then lastGainRef w else None)) w.
Proof. intros S. inversion S. reflexivity. Qed.

Lemma step_waveform_inv (w w' : World) (v : string) :
  step w (ChangeWaveform v) w' ->
  w' = edited (with_waveform v)
         (alter_ref (with_type v)
            (if changed_string (Render.waveform (state w)) v
             then lastOscRef w else None)) w.
Proof. intros S. inversion S. reflexivity. Qed.

(** X10. Moving the cutoff while a voice is live, in a reachable world: the
    event returns, commits the new cutoff and writes it to the frequency of
    the live filter at once; the filter keeps its kind, type, connections
    and timeline; no node is allocated, the voice refs and the pending
    timer are kept, and every other node, the gain with its envelope among
    them, is as it was.  With no live voice the store is unchanged. *)
Theorem cutoff_edit_reaches_live_filter (v : Q) (w : World) :
  reachable w ->
  ~ Render.filter (state w) == v ->
  exists w' : World,
    dispatch (ChangeFilter v) w = Ok tt w'
    /\ Render.filter (state w') = v
    /\ length (nodes w') = length (nodes w)
    /\ lastOscRef w' = lastOscRef w /\ lastGainRef w' = lastGainRef w
    /\ lastFilterRef w' = lastFilterRef w /\ timers w' = timers w
    /\ (forall id : nat,
          lastFilterRef w <> Some id -> nodes w' !! id = nodes w !! id)
    /\ (forall (id : nat) (a : AudioNode),
          lastFilterRef w = Some id -> nodes w !! id = Some a ->
          exists b : AudioNode,
            nodes w' !! id = Some b /\ value (param b) = v
            /\ events (param b) = events (param a) /\ type b = type a
            /\ same_but_param a b)
    /\ (lastFilterRef w = None -> nodes w' = nodes w).
Proof.
  intros Hreach Hne. eexists. split; [apply dispatch_returns, Hreach|].
  rewrite (step_filter_inv _ _ _ (dispatch_step (ChangeFilter v) w Hreach)).
  assert (Hch : changed_number (Render.filter (state w)) v = true).
  { unfold changed_number. destruct (Qeq_bool _ _) eqn:Q; [|reflexivity].
    apply Qeq_bool_iff in Q. contradiction. }
  rewrite Hch.
  destruct (edited_in_place (with_filter v)
              (with_param (fun p => mkParam v (events p))) (lastFilterRef w) w)
    as (L & R1 & R2 & R3 & T & _ & _ & Hother & Hat).
  do 6 (split; [assumption || reflexivity|]).
  split; [exact Hother|]. split.
  - intros id a Hf Ha. rewrite (Hat id Hf), Ha. eexists.
    split; [reflexivity|]. repeat split.
  - intros Hf. cbn. rewrite Hf. reflexivity.
Qed.

Lemma cutoff_edit_reaches_live_filter_witness :
  let w := run [Play] init in
  reachable w /\ ~ Render.filter (state w) == 800
  /\ exists (w' : World) (b : AudioNode),
       dispatch (ChangeFilter 800) w = Ok tt w'
       /\ nodes w' !! 6 = Some b /\ value (param b) = 800%Q
       /\ nodes w' !! 5 = nodes w !! 5.
Proof.
  intros w.
  assert (Hr : reachable w) by apply reachable_run, reachable_init.
  assert (Hne : ~ Render.filter (state w) == 800) by discriminate.
  split; [exact Hr|]. split; [exact Hne|].
  destruct (cutoff_edit_reaches_live_filter 800 w Hr Hne)
    as (w' & E & _ & _ & _ & _ & _ & _ & Hother & Hat & _).
  destruct (nodes w !! 6) as [a|] eqn:Ha; [|vm_compute in Ha; discriminate].
  destruct (Hat 6 a eq_refl Ha) as (b & Hb & Hv & _).
  exists w', b. split; [exact E|]. split; [exact Hb|]. split; [exact Hv|].
  apply Hother. discriminate.
Defined.

(** X11. Moving the volume while a voice is live, in a reachable world: the
    event returns, commits the new volume and assigns it to the value
    attribute of the live gain; the gain's automation timeline (the points
    of the envelope, with the targets computed from the volume at the
    trigger) is not touched, nor are its connections; no node is allocated
    and every other node is as it was. *)
Theorem volume_edit_keeps_envelope_points (v : Q) (w : World) :
  reachable w ->
  ~ Render.volume (state w) == v ->
  exists w' : World,
    dispatch (ChangeVolume v) w = Ok tt w'
    /\ Render.volume (state w') = v
    /\ length (nodes w') = length (nodes w)
    /\ lastOscRef w' = lastOscRef w /\ lastGainRef w' = lastGainRef w
    /\ lastFilterRef w' = lastFilterRef w /\ timers w' = timers w
    /\ (forall id : nat,
          lastGainRef w <> Some id -> nodes w' !! id = nodes w !! id)
    /\ (forall (id : nat) (a : AudioNode),
          lastGainRef w = Some id -> nodes w !! id = Some a ->
          exists b : AudioNode,
            nodes w' !! id = Some b /\ value (param b) = v
            /\ events (param b) = events (param a)
            /\ same_but_param a b).
Proof.
  intros Hreach Hne. eexists. split; [apply dispatch_returns, Hreach|].
  rewrite (step_volume_inv _ _ _ (dispatch_step (ChangeVolume v) w Hreach)).
  assert (Hch : changed_number (Render.volume (state w)) v = true).
  { unfold changed_number. destruct (Qeq_bool _ _) eqn:Q; [|reflexivity].
    apply Qeq_bool_iff in Q. contradiction. }
  rewrite Hch.
  destruct (edited_in_place (with_volume v)
              (with_param (fun p => mkParam v (events p))) (lastGainRef w) w)
    as (L & R1 & R2 & R3 & T & _ & _ & Hother & Hat).
  do 6 (split; [assumption || reflexivity|]).
  split; [exact Hother|].
  intros id a Hf Ha. rewrite (Hat id Hf), Ha. eexists.
  split; [reflexivity|]. repeat split.
Qed.

Lemma volume_edit_keeps_envelope_points_witness :
  let w := run [Play] init in
  reachable w /\ ~ Render.volume (state w) == 0.9
  /\ exists (w' : World) (b : AudioNode),
       dispatch (ChangeVolume 0.9) w = Ok tt w'
       /\ nodes w' !! 5 = Some b /\ value (param b) = 0.9%Q
       /\ events (param b)
          = [ SetValueAtTime 0 0; LinearRampToValueAtTime 0.5 (0 + 0.01);
              LinearRampToValueAtTime (0.5 * 0.7) (0 + 0.01 + 0.1);
              LinearRampToValueAtTime 0 (0 + 0.01 + 0.1 + 0.2) ]%Q.
Proof.
  intros w.
  assert (Hr : reachable w) by apply reachable_run, reachable_init.
  assert (Hne : ~ Render.volume (state w) == 0.9) by discriminate.
  split; [exact Hr|]. split; [exact Hne|].
  destruct (volume_edit_keeps_envelope_points 0.9 w Hr Hne)
    as (w' & E & _ & _ & _ & _ & _ & _ & _ & Hat).
  destruct (nodes w !! 5) as [a|] eqn:Ha; [|vm_compute in Ha; discriminate].
  destruct (Hat 5 a eq_refl Ha) as (b & Hb & Hv & He & _).
  exists w', b. split; [exact E|]. split; [exact Hb|]. split; [exact Hv|].
  rewrite He. vm_compute in Ha. injection Ha as <-. reflexivity.
Defined.

(** X12. Selecting another waveform while a voice is live, in a reachable
    world: the event returns, commits the waveform and sets the type of the
    live oscillator at once; the oscillator keeps its frequency, start and
    stop times and connections; no node is allocated and every other node
    is as it was.  Selecting the waveform that is already committed changes
    nothing, even when the live oscillator has another type. *)
Theorem waveform_edit_reaches_live_oscillator (v : string) (w : World) :
  reachable w ->
  exists w' : World,
    dispatch (ChangeWaveform v) w = Ok tt w'
    /\ Render.waveform (state w') = v
    /\ length (nodes w') = length (nodes w)
    /\ lastOscRef w' = lastOscRef w /\ lastGainRef w' = lastGainRef w
    /\ lastFilterRef w' = lastFilterRef w /\ timers w' = timers w
    /\ (forall id : nat,
          lastOscRef w <> Some id -> nodes w' !! id = nodes w !! id)
    /\ (Render.waveform (state w) <> v ->
        forall (id : nat) (a : AudioNode),
          lastOscRef w = Some id -> nodes w !! id = Some a ->
          exists b : AudioNode,
            nodes w' !! id = Some b /\ type b = v /\ param b = param a
            /\ startTime b = startTime a /\ stopTime b = stopTime a
            /\ outputs b = outputs a /\ kind b = kind a)
    /\ (Render.waveform (state w) = v -> nodes w' = nodes w).
Proof.
  intros Hreach. eexists. split; [apply dispatch_returns, Hreach|].
  rewrite (step_waveform_inv _ _ _
             (dispatch_step (ChangeWaveform v) w Hreach)).
  destruct (edited_in_place (with_waveform v) (with_type v)
              (if changed_string (Render.waveform (state w)) v
               then lastOscRef w else None) w)
    as (L & R1 & R2 & R3 & T & _ & _ & Hother & Hat).
  do 6 (split; [assumption || reflexivity|]).
  unfold changed_string in *.
  destruct (String.eqb_spec (Render.waveform (state w)) v) as [Heq|Hne];
    cbn [negb] in *.
  - split; [intros id _; apply Hother; discriminate|].
    split; [intros H; contradiction|]. intros _. reflexivity.
  - split; [exact Hother|]. split; [|intros H; contradiction].
    intros _ id a Ho Ha. rewrite (Hat id Ho), Ha. eexists.
    split; [reflexivity|]. repeat split.
Qed.

Lemma waveform_edit_reaches_live_oscillator_witness :
  let w := run [Play] init in
  reachable w
  /\ exists (w' : World) (b : AudioNode),
       dispatch (ChangeWaveform "sawtooth") w = Ok tt w'
       /\ nodes w' !! 4 = Some b /\ type b = "sawtooth".
Proof.
  intros w.
  assert (Hr : reachable w) by apply reachable_run, reachable_init.
  split; [exact Hr|].
  destruct (waveform_edit_reaches_live_oscillator "sawtooth" w Hr)
    as (w' & E & _ & _ & _ & _ & _ & _ & _ & Hat & _).
  destruct (nodes w !! 4) as [a|] eqn:Ha; [|vm_compute in Ha; discriminate].
  destruct (Hat ltac:(discriminate) 4 a eq_refl Ha) as (b & Hb & Ht & _).
  exists w', b. auto.
Defined.

Lemma step_play_inv (w w' : World) :
  step w Play w' -> playingRef w = false ->
  w' = ticked (state w) (Int 0) (set_playingRef true (set_playing true w)).
Proof. intros S Hp. inversion S; [congruence|reflexivity]. Qed.

Lemma play_from_stopped (w : World) :
  reachable w -> playingRef w = false ->
  let w1 := world_of (dispatch Play w) in
  playingRef w1 = true /\ state w1 = state w /\ currentStep w1 = Int 0
  /\ timers w1 = [mkTimer (nextTimerId w) (stepMs (state w)) (state w) (Int 0)].
Proof.
  intros Hreach Hp w1. subst w1.
  rewrite (step_play_inv _ _ (dispatch_step Play w Hreach) Hp).
  destruct (ticked_fields (state w) (Int 0)
              (set_playingRef true (set_playing true w)))
    as (F0 & _ & F2 & F3 & F4 & _).
  rewrite F0, F2, F3, F4. cbn.
  destruct (reachable_sync w Hreach) as (_ & _ & Hoff).
  rewrite (proj1 (Hoff Hp)). repeat split.
Qed.

Lemma run_keeps_environment (e0 : Render.t) (evs : list Event) :
  forall w : World,
    reachable w -> playingRef w = true ->
    (forall t : Timer, In t (timers w) -> env t = e0) ->
    Forall (fun ev => ev <> Stop) evs ->
    playingRef (run evs w) = true
    /\ forall t : Timer, In t (timers (run evs w)) -> env t = e0.
Proof.
  induction evs as [|ev evs IH]; intros w Hreach Hp Henv Hns;
    [split; assumption|].
  apply Forall_cons in Hns as [Hev Hns]. cbn [run].
  apply IH; [apply reachable_step, Hreach| | |exact Hns];
    pose proof (dispatch_step ev w Hreach) as S;
    destruct S; try assumption; try congruence; try contradiction.
  - rewrite (proj1 (proj2 (proj2 (ticked_fields _ _ _)))). exact Hp.
  - rewrite (proj1 (proj2 (proj2 (proj2 (proj2 (ticked_fields _ _ _)))))).
    cbn. intros t' [<-|[]]. cbn. apply Henv.
    apply List.find_some in H as [Hin _]. exact Hin.
Qed.

(** X13. A playback run keeps the environment of its play().  From a
    reachable stopped world, after Play and any events other than Stop
    (parameter edits, step edits, timers firing, clock advances), playback
    is still on and the one pending timer carries the state committed when
    Play was clicked: its delay is the step interval of that tempo and its
    callback will read that sequence, waveform, cutoff, volume and
    envelope. *)
Theorem playback_run_keeps_play_environment (w : World) (evs : list Event) :
  reachable w ->
  playingRef w = false ->
  Forall (fun ev => ev <> Stop) evs ->
  let w' := run (Play :: evs) w in
  playingRef w' = true
  /\ exists t : Timer,
       timers w' = [t] /\ env t = state w /\ delay t = stepMs (state w).
Proof.
  intros Hreach Hp Hns w'. subst w'. cbn [run].
  destruct (play_from_stopped w Hreach Hp) as (P1 & _ & _ & P4).
  assert (Hreach1 : reachable (world_of (dispatch Play w)))
    by apply reachable_step, Hreach.
  destruct (run_keeps_environment (state w) evs _ Hreach1 P1) as [R1 R2];
    [rewrite P4; intros t [<-|[]]; reflexivity|exact Hns|].
  split; [exact R1|].
  assert (Hreach2 : reachable (run evs (world_of (dispatch Play w))))
    by apply reachable_run, Hreach1.
  destruct (reachable_sync _ Hreach2) as (_ & Hon & _).
  destruct (Hon R1) as (t & Ht & _ & _ & Hd).
  exists t. split; [exact Ht|].
  assert (He : env t = state w) by (apply R2; rewrite Ht; left; reflexivity).
  split; [exact He|]. rewrite Hd, He. reflexivity.
Qed.

Lemma playback_run_keeps_play_environment_witness :
  let evs := [ChangeBpm 60; TimerFires 1; ChangeStep 3 "C4"; TimerFires 2] in
  reachable init /\ playingRef init = false
  /\ Forall (fun ev => ev <> Stop) evs
  /\ exists t : Timer,
       timers (run (Play :: evs) init) = [t] /\ env t = state init.
Proof.
  intros evs.
  assert (Hns : Forall (fun ev => ev <> Stop) evs)
    by (repeat constructor; discriminate).
  split; [exact reachable_init|]. split; [reflexivity|]. split; [exact Hns|].
  destruct (playback_run_keeps_play_environment init evs reachable_init
              eq_refl Hns) as (_ & t & Ht & He & _).
  exists t. split; assumption.
Defined.

(** X14. Stop followed by Play restarts the sequence with the current
    parameters: from any reachable world the two clicks leave playback on,
    step 0 published and one pending timer, which carries the state
    committed at that moment and the step interval of its tempo. *)
Theorem restart_applies_current_parameters (w : World) :
  reachable w ->
  let w' := run [Stop; Play] w in
  playingRef w' = true /\ playing w' = true /\ currentStep w' = Int 0
  /\ state w' = state w
  /\ exists t : Timer,
       timers w' = [t] /\ env t = state w /\ idx t = Int 0
       /\ delay t = stepMs (state w).
Proof.
  intros Hreach w'. subst w'. cbn [run].
  assert (Hreach1 : reachable (world_of (dispatch Stop w)))
    by apply reachable_step, Hreach.
  assert (Hs : world_of (dispatch Stop w) = stopped w)
    by (unfold dispatch; rewrite stopSequence_spec; reflexivity).
  assert (Hp : playingRef (world_of (dispatch Stop w)) = false)
    by (rewrite Hs; reflexivity).
  destruct (play_from_stopped _ Hreach1 Hp) as (P1 & P2 & P3 & P4).
  assert (Hst : state (world_of (dispatch Stop w)) = state w)
    by (rewrite Hs; reflexivity).
  split; [exact P1|]. split.
  - rewrite (proj1 (reachable_sync _ (reachable_step Play _ Hreach1))).
    exact P1.
  - split; [exact P3|]. split; [rewrite P2; exact Hst|].
    eexists. split; [exact P4|]. rewrite Hst. repeat split.
Qed.

Lemma restart_applies_current_parameters_witness :
  let w := run [Play; ChangeBpm 60; TimerFires 1] init in
  reachable w
  /\ exists t : Timer,
       timers (run [Stop; Play] w) = [t] /\ env t = state w
       /\ delay t = stepMs (state w).
Proof.
  intros w.
  assert (Hr : reachable w) by apply reachable_run, reachable_init.
  split; [exact Hr|].
  destruct (restart_applies_current_parameters w Hr)
    as (_ & _ & _ & _ & t & Ht & He & _ & Hd).
  exists t. auto.
Defined.

(** X15. The mount effect builds the persistent graph once.  On the world
    before the first render it returns with the audio context created and
    four nodes in the store: the destination, the dry gain with value
    [1 - reverb] and the wet gain with value [reverb], both connected to
    the destination, and the convolver connected to the wet gain.  Run
    again, there or on any world whose context and three refs are set, it
    changes nothing. *)
Theorem mountEffect_builds_graph_once (e e' : Render.t) :
  exists w : World,
    mountEffect e pristine = Ok tt w
    /\ audioCtxRef w = true
    /\ dryGainRef w = Some 1 /\ wetGainRef w = Some 2
    /\ convolverRef w = Some 3
    /\ nodes w =
         [ mkNode Destination "" (mkParam 0 []) None None [];
           mkNode Gain "" (mkParam (1 - Render.reverb e) []) None None [0];
           mkNode Gain "" (mkParam (Render.reverb e) []) None None [0];
           mkNode Convolver "" (mkParam 0 []) None None [2] ]
    /\ lastOscRef w = None /\ timers w = []
    /\ mountEffect e' w = Ok tt w
    /\ forall w0 : World,
         audioCtxRef w0 = true -> is_Some (dryGainRef w0) ->
         is_Some (wetGainRef w0) -> is_Some (convolverRef w0) ->
         mountEffect e' w0 = Ok tt w0.
Proof.
  exists (mkWorld initialState false (Int (-1)) false
            true (Some 1) (Some 2) (Some 3) None None None None 0
            [ mkNode Destination "" (mkParam 0 []) None None [];
              mkNode Gain "" (mkParam (1 - Render.reverb e) []) None None [0];
              mkNode Gain "" (mkParam (Render.reverb e) []) None None [0];
              mkNode Convolver "" (mkParam 0 []) None None [2] ]
            [] 1).
  split; [vm_compute; reflexivity|]. do 7 (split; [reflexivity|]).
  split; [vm_compute; reflexivity|].
  intros w0 Hc [d Hd] [wt Hw] [c Hv].
  unfold mountEffect. step. rewrite Hc. step. rewrite Hd. step.
  rewrite Hw. step. rewrite Hv. reflexivity.
Qed.

(** X16. What a trigger builds.  In a reachable world, a tick on a slot
    whose note the table holds, run by a closure of environment [e],
    returns and leaves the voice refs on three fresh nodes: an oscillator
    with the table's frequency and [e]'s waveform, started at the current
    instant, set to stop after [e]'s attack, decay and release, connected
    to the filter; a low-pass filter at [e]'s cutoff connected to the gain;
    and a gain connected to the dry gain and to the convolver, whose value
    attribute is [e]'s volume and whose timeline is the four envelope
    points, opening with value 0 at the current instant. *)
Theorem trigger_builds_voice_from_closure (e : Render.t) (i : index)
    (w : World) (freq : Q) :
  reachable w ->
  note_freq (steps_get (Render.steps e) i) = Some freq ->
  let n := length (nodes w) in
  let now := currentTime w in
  let stopAt := (now + ADSR.a (Render.adsr e) + ADSR.d (Render.adsr e)
                   + ADSR.r (Render.adsr e))%Q in
  exists w' : World,
    nextStep e i w = Ok tt w'
    /\ length (nodes w') = n + 3
    /\ lastOscRef w' = Some n /\ lastGainRef w' = Some (n + 1)
    /\ lastFilterRef w' = Some (n + 2)
    /\ nodes w' !! n
       = Some (mkNode Oscillator (Render.waveform e) (mkParam freq [])
                 (Some now) (Some stopAt) [n + 2])
    /\ nodes w' !! (n + 2)
       = Some (mkNode BiquadFilter "lowpass" (mkParam (Render.filter e) [])
                 None None [n + 1])
    /\ nodes w' !! (n + 1)
       = Some (mkNode Gain ""
                 (mkParam (Render.volume e)
                    [ SetValueAtTime 0 now;
                      LinearRampToValueAtTime (Render.volume e)
                        (now + ADSR.a (Render.adsr e));
                      LinearRampToValueAtTime
                        (Render.volume e * ADSR.s (Render.adsr e))
                        (now + ADSR.a (Render.adsr e)
                           + ADSR.d (Render.adsr e));
                      LinearRampToValueAtTime 0 stopAt ]%Q)
                 None None [1; 3])
    /\ live_voices w' = [n].
Proof.
  intros Hreach Hn n now stopAt.
  destruct (reachable_Inv w Hreach) as [(Hc & _ & _) Hlive].
  destruct (reachable_layout w Hreach) as (Hd & _ & Hv & _ & _).
  destruct (trigger_builds_voice e i w freq 1 3 Hc Hd Hv Hn)
    as (w' & E & _ & Ht & Ho & Hg & Hf & Hosc & Hfil & Hgain).
  exists w'. split; [exact E|].
  assert (Hlen : length (nodes w') = n + 3).
  { rewrite (nextStep_voice e i w freq 1 3 Hn Hc Hd Hv) in E.
    injection E as <-. cbn. rewrite length_app, length_torn_nodes. cbn.
    reflexivity. }
  split; [exact Hlen|]. do 6 (split; [assumption|]).
  destruct (safe_nextStep e i w (conj (conj Hc (conj (ex_intro _ 1 Hd)
                                                  (ex_intro _ 3 Hv))) Hlive))
    as ([] & w2 & E2 & [_ Hlive']).
  rewrite E in E2. injection E2 as <-.
  assert (Hln : live w' n = true).
  { unfold live. fold n in Hosc. rewrite Hosc. cbn. unfold live_node. cbn.
    apply negb_true_iff, andb_false_r. }
  unfold live_voices. apply filter_seq_single; [lia|exact Hln|].
  intros x _ Hx. destruct (live w' x) eqn:Ex; [|reflexivity].
  apply Hlive' in Ex. rewrite Ho in Ex. injection Ex as Ex.
  subst n. congruence.
Qed.

Lemma trigger_builds_voice_from_closure_witness :
  reachable init
  /\ note_freq (steps_get (Render.steps initialState) (Int 2)) = Some 196.00%Q
  /\ exists w' : World,
       nextStep initialState (Int 2) init = Ok tt w'
       /\ lastOscRef w' = Some 4 /\ live_voices w' = [4].
Proof.
  split; [exact reachable_init|]. split; [reflexivity|].
  destruct (trigger_builds_voice_from_closure initialState (Int 2) init
              196.00%Q reachable_init eq_refl)
    as (w' & E & _ & Ho & _ & _ & _ & _ & _ & Hl).
  exists w'. split; [exact E|]. split; [exact Ho|exact Hl].
Defined.

(** X17. The notes on offer all sound.  The keys of the pitch table are the
    options of the step selects, in the same order; every one of them
    triggers a voice, at a frequency between 130 and 784 Hz that rises
    along the list; the empty option and a hole are rests; and the default
    sequence is made of listed notes. *)
Theorem every_listed_note_has_a_pitch :
  map fst NOTE_FREQS_table = NOTE_LIST
  /\ (forall n : string,
        In n NOTE_LIST ->
        exists f : Q,
          NOTE_FREQS n = Some f /\ note_freq (Some n) = Some f
          /\ (130 < f < 784)%Q)
  /\ increasing (map snd NOTE_FREQS_table) = true
  /\ note_freq (Some "") = None /\ note_freq None = None
  /\ Forall (fun s : slot => exists n, s = Some n /\ In n NOTE_LIST)
       DEFAULT_SEQ.
Proof.
  split; [reflexivity|]. split.
  - intros n Hn. unfold NOTE_LIST in Hn. cbn [In] in Hn.
    repeat (destruct Hn as [<-|Hn];
            [eexists; split; [reflexivity|]; split; [reflexivity|];
             split; reflexivity|]).
    destruct Hn.
  - split; [vm_compute; reflexivity|]. split; [reflexivity|].
    split; [reflexivity|].
    unfold DEFAULT_SEQ. cbn [map].
    repeat (apply Forall_cons; split;
            [eexists; split; [reflexivity|]; cbn [NOTE_LIST In]; tauto|]).
    apply Forall_nil. trivial.
Qed.

(** ** What the controls can reach *)

Lemma step_option_has_pitch (n : string) :
  In n STEP_OPTIONS ->
  (n = "" \/ exists f : Q, NOTE_FREQS n = Some f /\ note_freq (Some n) = Some f)
  /\ ~ In n Object_prototype_names.
Proof.
  revert n. apply (proj1 (List.Forall_forall _ STEP_OPTIONS)).
  unfold STEP_OPTIONS, NOTE_LIST.
  repeat (apply List.Forall_cons;
          [split;
           [first [left; reflexivity
                  |right; eexists; split; vm_compute; reflexivity]
           |intros H; cbn in H; intuition discriminate]|]).
  apply List.Forall_nil.
Qed.

Lemma controls_ok_init : controls_ok init.
Proof.
  split; [|intros t []].
  unfold in_control_range. cbn.
  split; [left; reflexivity|].
  do 4 (split; [split; discriminate|]).
  split; [intros []; split; discriminate|].
  split; [reflexivity|].
  repeat (apply List.Forall_cons;
          [eexists; split; [reflexivity|]; cbn; tauto|]).
  apply List.Forall_nil.
Qed.

Lemma controls_ok_step (w : World) (ev : Event) (w' : World) :
  controls_ok w -> control_event w ev -> step w ev w' -> controls_ok w'.
Proof.
  intros [Hst Htm] Hc Hstep.
  assert (Hkeep : forall f upd,
            in_control_range (f (state w)) -> controls_ok (edited f upd w))
    by (intros f upd Hf; split; [exact Hf|exact Htm]).
  pose proof Hst as (Hw & Hb & Hv & Hf & Hr & Ha & Hl & Hs).
  revert Hc. destruct Hstep; intros Hc; cbn in Hc;
    try (split; assumption).
  - (* play *)
    destruct (ticked_fields (state w) (Int 0)
                (set_playingRef true (set_playing true w)))
      as (F0 & _ & _ & _ & F4 & _).
    split; [rewrite F0; exact Hst|]. rewrite F4. cbn.
    intros t Ht. apply in_app_or in Ht as [Ht|[<-|[]]]; auto.
  - (* stop *)
    split; [exact Hst|]. cbn. intros t Ht.
    destruct (stepTimerRef w); [apply List.filter_In in Ht as [Ht _]|];
      auto.
  - apply Hkeep. unfold in_control_range. cbn. tauto.
  - apply Hkeep. unfold in_control_range. cbn.
    split; [exact Hw|]. split; [|tauto].
    apply clamp_spec. discriminate.
  - apply Hkeep. unfold in_control_range. cbn. tauto.
  - apply Hkeep. unfold in_control_range. cbn. tauto.
  - apply Hkeep. unfold in_control_range. cbn. tauto.
  - (* adsr *)
    apply Hkeep. unfold in_control_range. cbn.
    do 5 (split; [assumption|]). split; [|tauto].
    intros f.
    assert (Hin : (0 <= val <= 2)%Q).
    { destruct field; unfold knob_min, knob_max in Hc; split; lra. }
    destruct (clamp_spec val 0 2) as (_ & Hc2 & _); [discriminate|].
    specialize (Hc2 Hin). specialize (Ha f).
    destruct field, f; cbn; try exact Ha; rewrite Hc2; exact Hc.
  - (* steps *)
    destruct Hc as [Hi Hval].
    apply Hkeep. unfold in_control_range. cbn.
    do 6 (split; [assumption|]).
    unfold array_set. apply Nat.ltb_lt in Hi. rewrite Hi.
    split; [rewrite length_insert; exact Hl|].
    apply Forall_insert; [exact Hs|]. eexists. split; [reflexivity|exact Hval].
  - (* timer *)
    destruct (ticked_fields (env t)
                (succ_rem (idx t) (length (Render.steps (env t))))
                (set_timers (fun _ => []) w))
      as (F0 & _ & _ & _ & F4 & _).
    split; [rewrite F0; exact Hst|]. rewrite F4. cbn.
    intros t' [<-|[]]. cbn. apply Htm.
    apply List.find_some in H as [Hin _]. exact Hin.
Qed.

Lemma controls_ok_run (evs : list Event) (w : World) :
  reachable w -> controls_ok w -> delivered evs w -> controls_ok (run evs w).
Proof.
  revert w. induction evs as [|ev evs IH]; intros w Hr Hok Hd; [exact Hok|].
  destruct Hd as [Hc Hd]. cbn [run]. apply IH.
  - apply reachable_step, Hr.
  - apply (controls_ok_step w ev); [exact Hok|exact Hc|].
    apply dispatch_step, Hr.
  - exact Hd.
Qed.

(** X20. Whatever the controls deliver, in whatever order, with timers
    firing in between: the committed state and the environment of every
    pending timer hold a waveform of the select, a tempo in [40, 300], a
    volume and a reverb amount in [0, 1], a cutoff in [20, 20000], attack,
    decay and release in [0, 2], sustain in [0, 1] and a sequence of 16
    slots without holes.  Every slot a tick can read is the empty option or
    a note with a pitch, and never a name the table object inherits. *)
Theorem controls_keep_every_value_in_range (evs : list Event) :
  delivered evs init ->
  let w := run evs init in
  in_control_range (state w)
  /\ (forall t : Timer, In t (timers w) -> in_control_range (env t))
  /\ forall (e : Render.t) (z : Z) (n : string),
       e = state w \/ (exists t : Timer, In t (timers w) /\ e = env t) ->
       steps_get (Render.steps e) (Int z) = Some n ->
       (n = "" \/ exists f : Q, note_freq (Some n) = Some f)
       /\ ~ In n Object_prototype_names.
Proof.
  intros Hd w.
  destruct (controls_ok_run evs init reachable_init controls_ok_init Hd)
    as [Hst Htm].
  split; [exact Hst|]. split; [exact Htm|].
  intros e z n He Hn.
  assert (Hr : in_control_range e).
  { destruct He as [->|(t & Ht & ->)]; [exact Hst|exact (Htm t Ht)]. }
  destruct Hr as (_ & _ & _ & _ & _ & _ & _ & Hs).
  unfold steps_get in Hn. destruct (z <? 0)%Z; [discriminate|].
  destruct (Render.steps e !! Z.to_nat z) as [s|] eqn:El; [|discriminate].
  cbn in Hn. subst s.
  apply (proj1 (Forall_lookup _ _) Hs) in El as (n' & [= <-] & Hin).
  destruct (step_option_has_pitch n Hin) as [[->|(f & _ & Hf)] Hno].
  - split; [left; reflexivity|exact Hno].
  - split; [right; exists f; exact Hf|exact Hno].
Qed.

Lemma controls_keep_every_value_in_range_witness :
  let evs := [ Play; ChangeAdsr fs 1; ChangeStep 1 ""; ChangeBpm 60;
               TimerFires 1 ] in
  delivered evs init
  /\ (0 <= ADSR.s (Render.adsr (state (run evs init))) <= 1)%Q
  /\ length (Render.steps (state (run evs init))) = 16.
Proof.
  intros evs.
  assert (Hd : delivered evs init).
  { vm_compute. repeat split; try discriminate; try lia; tauto. }
  split; [exact Hd|].
  destruct (controls_keep_every_value_in_range evs Hd)
    as ((_ & _ & _ & _ & _ & Ha & Hl & _) & _).
  split; [exact (Ha fs)|exact Hl].
Defined.
